(** * Hyper-V VMBus ring buffer (drivers/hv/ring_buffer.c)

    A shallow embedding of the ring-buffer core and the verification of its
    specification.  Machine integers are [Z] with the wrap-around written
    out ([u32], [u64]); memory is lists of bytes; an operation that would
    dereference a null control-block pointer or divide by zero faults, which
    is [None].  The two memory barriers and the per-endpoint spin lock have no
    effect on a sequential state and are left out ([lock] is kept as an
    argument of the write path). *)

From Stdlib Require Import ZArith List Lia Bool.
From Stdlib.Strings Require Import Byte.
Import ListNotations.
Open Scope Z_scope.

(** ** Machine integers and bytes *)

Definition u32 (x : Z) : Z := x mod 2 ^ 32.
Definition u64 (x : Z) : Z := x mod 2 ^ 64.

Definition EAGAIN : Z := 11.
Definition EINVAL : Z := 22.
Definition ENOBUFS : Z := 105.

Definition byte_of_Z (z : Z) : byte :=
  match Byte.of_N (Z.to_N (z mod 256)) with
  | Some b => b
  | None => x00
  end.

Definition Z_of_byte (b : byte) : Z := Z.of_N (Byte.to_N b).

(** Little-endian image of an integer in [n] bytes, and back (the guest
    runs little-endian). *)
Fixpoint le_bytes (n : nat) (v : Z) : list byte :=
  match n with
  | O => []
  | S n' => byte_of_Z v :: le_bytes n' (Z.shiftr v 8)
  end.

Fixpoint le_value (bs : list byte) : Z :=
  match bs with
  | [] => 0
  | b :: bs' => Z_of_byte b + 256 * le_value bs'
  end.

(** [znth i l]: the byte at index [i]; outside the list the model reads
    [x00] (the C code would read memory the model does not track). *)
Definition znth (i : Z) (l : list byte) : byte :=
  if i <? 0 then x00 else nth (Z.to_nat i) l x00.

Definition zlen (l : list byte) : Z := Z.of_nat (length l).

(** [memcpy dst doff src soff n] is [memcpy(dst + doff, src + soff, n)]:
    the bytes [doff .. doff+n-1] of [dst] become the bytes
    [soff .. soff+n-1] of [src].  A write past the end of [dst] is dropped
    (the model tracks only the destination object). *)
Fixpoint memcpy_at (j : Z) (dst : list byte) (doff : Z) (src : list byte)
    (soff n : Z) : list byte :=
  match dst with
  | [] => []
  | b :: dst' =>
      (if (doff <=? j) && (j <? doff + n)
       then znth (soff + (j - doff)) src else b)
      :: memcpy_at (j + 1) dst' doff src soff n
  end.

Definition memcpy (dst : list byte) (doff : Z) (src : list byte)
    (soff n : Z) : list byte :=
  memcpy_at 0 dst doff src soff n.

(** ** Fault monad *)

Notation "x <- e ;; k" :=
  (match e with Some x => k | None => None end)
  (at level 61, e at next level, right associativity).
Notation "' p <- e ;; k" :=
  (match e with Some p => k | None => None end)
  (at level 61, p pattern, e at next level, right associativity).

(** [a % b] on unsigned operands; a zero divisor traps. *)
Definition umod (a b : Z) : option Z :=
  if b =? 0 then None else Some (a mod b).

(** ** Data model *)

(** [struct hv_ring_buffer]: the shared control block followed by the data
    region [buffer]. *)
Record hv_ring_buffer := mk_ring_buffer {
  write_index : Z;
  read_index : Z;
  interrupt_mask : Z;
  pending_send_sz : Z;
  feature_bits : Z;
  buffer : list byte
}.

(** [struct hv_ring_buffer_info]: the local endpoint.  [ring_buffer] is a
    pointer, [None] when null. *)
Record hv_ring_buffer_info := mk_ring_info {
  ring_buffer : option hv_ring_buffer;
  ring_size : Z;
  ring_datasize : Z
}.

Record hv_ring_buffer_debug_info := mk_debug_info {
  current_interrupt_mask : Z;
  current_read_index : Z;
  current_write_index : Z;
  bytes_avail_toread : Z;
  bytes_avail_towrite : Z
}.

(** The fields of [struct vmpacket_descriptor] the read path decodes. *)
Record vmpacket_descriptor := mk_desc {
  offset8 : Z;
  len8 : Z;
  trans_id : Z
}.

(** [struct kvec]: a segment is its bytes, [iov_len] their number. *)
Definition kvec := list byte.
Definition iov_base (k : kvec) : list byte := k.
Definition iov_len (k : kvec) : Z := Z.of_nat (length k).

(** What the headers that are not part of the file fix: the page size, the
    size of the control-block structure, and the size and field layout of the
    packet descriptor. *)
Class Layout := mk_layout {
  PAGE_SIZE : Z;
  sizeof_hv_ring_buffer : Z;
  sizeof_desc : Z;
  desc_of_bytes : list byte -> vmpacket_descriptor
}.

(** The caller's locations the read path writes through its pointer
    arguments: the destination buffer, [*buffer_actual_len], [*requestid]
    and [*signal]. *)
Record read_outs := mk_outs {
  dest : list byte;
  buffer_actual_len : Z;
  requestid : Z;
  signal : bool
}.

Definition set_write_index (rb : hv_ring_buffer) (v : Z) : hv_ring_buffer :=
  mk_ring_buffer v (read_index rb) (interrupt_mask rb) (pending_send_sz rb)
    (feature_bits rb) (buffer rb).

Definition set_read_index (rb : hv_ring_buffer) (v : Z) : hv_ring_buffer :=
  mk_ring_buffer (write_index rb) v (interrupt_mask rb) (pending_send_sz rb)
    (feature_bits rb) (buffer rb).

Definition set_interrupt_mask (rb : hv_ring_buffer) (v : Z) : hv_ring_buffer :=
  mk_ring_buffer (write_index rb) (read_index rb) v (pending_send_sz rb)
    (feature_bits rb) (buffer rb).

Definition set_feature_bits (rb : hv_ring_buffer) (v : Z) : hv_ring_buffer :=
  mk_ring_buffer (write_index rb) (read_index rb) (interrupt_mask rb)
    (pending_send_sz rb) v (buffer rb).

Definition set_buffer (rb : hv_ring_buffer) (b : list byte) : hv_ring_buffer :=
  mk_ring_buffer (write_index rb) (read_index rb) (interrupt_mask rb)
    (pending_send_sz rb) (feature_bits rb) b.

Definition with_ring (ri : hv_ring_buffer_info) (rb : hv_ring_buffer)
    : hv_ring_buffer_info :=
  mk_ring_info (Some rb) (ring_size ri) (ring_datasize ri).

(** ** Operations *)

(** Modelled from the spec: [hv_get_ringbuffer_availbytes] is an inline
    helper of hyperv_vmbus.h, which is not part of the file.  Section 3:
    available-to-read is [(write_index - read_index) mod data_size] and
    available-to-write is [data_size - available_to_read].  Returns
    [(read, write)]. *)
Definition hv_get_ringbuffer_availbytes (rbi : hv_ring_buffer_info)
    : option (Z * Z) :=
  rb <- ring_buffer rbi ;;
  let read := (write_index rb - read_index rb) mod ring_datasize rbi in
  Some (read, ring_datasize rbi - read).

Definition hv_begin_read (rbi : hv_ring_buffer_info)
    : option hv_ring_buffer_info :=
  rb <- ring_buffer rbi ;;
  Some (with_ring rbi (set_interrupt_mask rb 1)).

Definition hv_end_read (rbi : hv_ring_buffer_info)
    : option (Z * hv_ring_buffer_info) :=
  rb <- ring_buffer rbi ;;
  let rbi := with_ring rbi (set_interrupt_mask rb 0) in
  '(read, write) <- hv_get_ringbuffer_availbytes rbi ;;
  Some (read, rbi).

Definition hv_need_to_signal (old_write : Z) (rbi : hv_ring_buffer_info)
    : option bool :=
  rb <- ring_buffer rbi ;;
  if negb (interrupt_mask rb =? 0) then Some false
  else if old_write =? read_index rb then Some true
  else Some false.

Definition hv_need_to_signal_on_read (prev_write_sz : Z)
    (rbi : hv_ring_buffer_info) : option bool :=
  rb <- ring_buffer rbi ;;
  let write_loc := write_index rb in
  let read_loc := read_index rb in
  let pending_sz := pending_send_sz rb in
  if pending_sz =? 0 then Some false
  else
    let r_size := ring_datasize rbi in
    let cur_write_sz :=
      if write_loc >=? read_loc then u32 (r_size - u32 (write_loc - read_loc))
      else u32 (read_loc - write_loc) in
    if (prev_write_sz <? pending_sz) && (cur_write_sz >=? pending_sz)
    then Some true
    else Some false.

Definition hv_get_next_write_location (ring_info : hv_ring_buffer_info)
    : option Z :=
  rb <- ring_buffer ring_info ;;
  Some (write_index rb).

Definition hv_set_next_write_location (ring_info : hv_ring_buffer_info)
    (next_write_location : Z) : option hv_ring_buffer_info :=
  rb <- ring_buffer ring_info ;;
  Some (with_ring ring_info (set_write_index rb next_write_location)).

Definition hv_get_next_read_location (ring_info : hv_ring_buffer_info)
    : option Z :=
  rb <- ring_buffer ring_info ;;
  Some (read_index rb).

Definition hv_get_next_readlocation_withoffset
    (ring_info : hv_ring_buffer_info) (offset : Z) : option Z :=
  rb <- ring_buffer ring_info ;;
  let next := read_index rb in
  let next := u32 (next + offset) in
  umod next (ring_datasize ring_info).

Definition hv_set_next_read_location (ring_info : hv_ring_buffer_info)
    (next_read_location : Z) : option hv_ring_buffer_info :=
  rb <- ring_buffer ring_info ;;
  Some (with_ring ring_info (set_read_index rb next_read_location)).

Definition hv_get_ring_buffer (ring_info : hv_ring_buffer_info)
    : option (list byte) :=
  rb <- ring_buffer ring_info ;;
  Some (buffer rb).

Definition hv_get_ring_buffersize (ring_info : hv_ring_buffer_info) : Z :=
  ring_datasize ring_info.

Definition hv_get_ring_bufferindices (ring_info : hv_ring_buffer_info)
    : option Z :=
  rb <- ring_buffer ring_info ;;
  Some (u64 (Z.shiftl (write_index rb) 32)).

(** Returns the destination after the copy and the advanced offset. *)
Definition hv_copyfrom_ringbuffer (ring_info : hv_ring_buffer_info)
    (dest : list byte) (destlen : Z) (start_read_offset : Z)
    : option (list byte * Z) :=
  ring <- hv_get_ring_buffer ring_info ;;
  let ring_buffer_size := hv_get_ring_buffersize ring_info in
  let dest :=
    if destlen >? u32 (ring_buffer_size - start_read_offset) then
      let frag_len := u32 (ring_buffer_size - start_read_offset) in
      let dest := memcpy dest 0 ring start_read_offset frag_len in
      memcpy dest frag_len ring 0 (u32 (destlen - frag_len))
    else
      memcpy dest 0 ring start_read_offset destlen in
  let start_read_offset := u32 (start_read_offset + destlen) in
  start_read_offset <- umod start_read_offset ring_buffer_size ;;
  Some (dest, start_read_offset).

(** Returns the endpoint with the data region after the copy and the
    advanced offset. *)
Definition hv_copyto_ringbuffer (ring_info : hv_ring_buffer_info)
    (start_write_offset : Z) (src : list byte) (srclen : Z)
    : option (hv_ring_buffer_info * Z) :=
  rb <- ring_buffer ring_info ;;
  let ring := buffer rb in
  let ring_buffer_size := hv_get_ring_buffersize ring_info in
  let ring :=
    if srclen >? u32 (ring_buffer_size - start_write_offset) then
      let frag_len := u32 (ring_buffer_size - start_write_offset) in
      let ring := memcpy ring start_write_offset src 0 frag_len in
      memcpy ring 0 src frag_len (u32 (srclen - frag_len))
    else
      memcpy ring start_write_offset src 0 srclen in
  let start_write_offset := u32 (start_write_offset + srclen) in
  start_write_offset <- umod start_write_offset ring_buffer_size ;;
  Some (with_ring ring_info (set_buffer rb ring), start_write_offset).

Definition hv_ringbuffer_get_debuginfo (ring_info : hv_ring_buffer_info)
    (debug_info : hv_ring_buffer_debug_info)
    : option hv_ring_buffer_debug_info :=
  match ring_buffer ring_info with
  | Some rb =>
      '(avail_toread, avail_towrite) <-
        hv_get_ringbuffer_availbytes ring_info ;;
      Some {| bytes_avail_toread := avail_toread;
              bytes_avail_towrite := avail_towrite;
              current_read_index := read_index rb;
              current_write_index := write_index rb;
              current_interrupt_mask := interrupt_mask rb |}
  | None => Some debug_info
  end.

(** The first loop of the write path: the u32 sum of the segment lengths. *)
Fixpoint sum_iov_len (kv_list : list kvec) (totalbytes_towrite : Z) : Z :=
  match kv_list with
  | [] => totalbytes_towrite
  | kv :: rest => sum_iov_len rest (u32 (totalbytes_towrite + iov_len kv))
  end.

(** The second loop of the write path: each segment copied in turn. *)
Fixpoint copy_kv_list (ring_info : hv_ring_buffer_info)
    (kv_list : list kvec) (next_write_location : Z)
    : option (hv_ring_buffer_info * Z) :=
  match kv_list with
  | [] => Some (ring_info, next_write_location)
  | kv :: rest =>
      '(ring_info, next_write_location) <-
        hv_copyto_ringbuffer ring_info next_write_location
          (iov_base kv) (u32 (iov_len kv)) ;;
      copy_kv_list ring_info rest next_write_location
  end.

(** Returns the return value, [*signal] and the endpoint. *)
Definition hv_ringbuffer_write (outring_info : hv_ring_buffer_info)
    (kv_list : list kvec) (signal : bool) (lock : bool)
    : option (Z * bool * hv_ring_buffer_info) :=
  let totalbytes_towrite := sum_iov_len kv_list 0 in
  let totalbytes_towrite := u32 (totalbytes_towrite + 8) in
  '(avail_toread, avail_towrite) <-
    hv_get_ringbuffer_availbytes outring_info ;;
  if avail_towrite <=? totalbytes_towrite then
    Some (- EAGAIN, signal, outring_info)
  else
    next_write_location <- hv_get_next_write_location outring_info ;;
    let old_write := next_write_location in
    '(outring_info, next_write_location) <-
      copy_kv_list outring_info kv_list next_write_location ;;
    prev_indices <- hv_get_ring_bufferindices outring_info ;;
    '(outring_info, next_write_location) <-
      hv_copyto_ringbuffer outring_info next_write_location
        (le_bytes 8 prev_indices) 8 ;;
    outring_info <-
      hv_set_next_write_location outring_info next_write_location ;;
    signal <- hv_need_to_signal old_write outring_info ;;
    Some (0, signal, outring_info).

Section Model.
Context {L : Layout}.

(** Returns the return value and the endpoint; a null [buffer] traps. *)
Definition hv_ringbuffer_init (ring_info : hv_ring_buffer_info)
    (buffer : option hv_ring_buffer) (buflen : Z)
    : option (Z * hv_ring_buffer_info) :=
  if negb (sizeof_hv_ring_buffer =? PAGE_SIZE) then
    Some (- EINVAL, ring_info)
  else
    rb <- buffer ;;
    let rb := set_read_index (set_write_index rb 0) 0 in
    let rb := set_feature_bits rb 1 in
    Some (0, mk_ring_info (Some rb) buflen
               (u32 (buflen - sizeof_hv_ring_buffer))).

(** Returns the return value, the caller's locations and the endpoint. *)
Definition hv_ringbuffer_read (inring_info : hv_ring_buffer_info)
    (o : read_outs) (buflen : Z) (raw : bool)
    : option (Z * read_outs * hv_ring_buffer_info) :=
  if buflen <=? 0 then Some (- EINVAL, o, inring_info)
  else
    let o := mk_outs (dest o) 0 0 (signal o) in
    '(avail_toread, avail_towrite) <-
      hv_get_ringbuffer_availbytes inring_info ;;
    if avail_toread <? sizeof_desc then Some (0, o, inring_info)
    else
      next_read_location <- hv_get_next_read_location inring_info ;;
      '(desc, next_read_location) <-
        hv_copyfrom_ringbuffer inring_info
          (repeat x00 (Z.to_nat sizeof_desc)) (u32 sizeof_desc)
          next_read_location ;;
      let desc := desc_of_bytes desc in
      let offset := if raw then 0 else u32 (Z.shiftl (offset8 desc) 3) in
      let packetlen := u32 (Z.shiftl (len8 desc) 3 - offset) in
      let o := mk_outs (dest o) packetlen (trans_id desc) (signal o) in
      if avail_toread <? u32 (packetlen + offset) then
        Some (- EAGAIN, o, inring_info)
      else if packetlen >? buflen then
        Some (- ENOBUFS, o, inring_info)
      else
        next_read_location <-
          hv_get_next_readlocation_withoffset inring_info offset ;;
        '(buffer, next_read_location) <-
          hv_copyfrom_ringbuffer inring_info (dest o) packetlen
            next_read_location ;;
        '(prev_indices, next_read_location) <-
          hv_copyfrom_ringbuffer inring_info (le_bytes 8 0) 8
            next_read_location ;;
        inring_info <-
          hv_set_next_read_location inring_info next_read_location ;;
        signal <- hv_need_to_signal_on_read avail_towrite inring_info ;;
        Some (0, mk_outs buffer (buffer_actual_len o) (requestid o) signal,
              inring_info).

End Model.

(** ** The checked form of a ring and the packets it holds *)

(** The invariants of section 3: a mapped control block, both indices inside
    the data region, and a data region of [ring_datasize] bytes, at most
    2^31 so that an offset plus a length fits the u32 the code adds them
    in. *)
Definition ring_wf (ri : hv_ring_buffer_info) (rb : hv_ring_buffer) : Prop :=
  ring_buffer ri = Some rb /\
  0 < ring_datasize ri <= 2 ^ 31 /\
  0 <= read_index rb < ring_datasize ri /\
  0 <= write_index rb < ring_datasize ri /\
  zlen (buffer rb) = ring_datasize ri.

(** [ztab n f] is the list [f 0; ...; f (n-1)]. *)
Definition ztab (n : nat) (f : Z -> byte) : list byte :=
  map (fun i => f (Z.of_nat i)) (seq 0 n).

(** The [n] bytes of the data region from offset [off], around the end. *)
Definition ring_slice (ring : list byte) (size off : Z) (n : nat)
    : list byte :=
  ztab n (fun i => znth ((off + i) mod size) ring).

(** The data region after [src] is laid down from offset [off], around the
    end. *)
Definition circ_write (ring : list byte) (size off : Z) (src : list byte)
    : list byte :=
  ztab (length ring)
    (fun j => if (j - off) mod size <? zlen src
              then znth ((j - off) mod size) src else znth j ring).

Section Packets.
Context {L : Layout}.

(** The descriptor the read path decodes at the read index. *)
Definition peek_desc (ri : hv_ring_buffer_info) : option vmpacket_descriptor :=
  next <- hv_get_next_read_location ri ;;
  '(bytes, _) <-
    hv_copyfrom_ringbuffer ri (repeat x00 (Z.to_nat sizeof_desc))
      (u32 sizeof_desc) next ;;
  Some (desc_of_bytes bytes).

Definition header_skip (raw : bool) (d : vmpacket_descriptor) : Z :=
  if raw then 0 else u32 (Z.shiftl (offset8 d) 3).

Definition payload_len (raw : bool) (d : vmpacket_descriptor) : Z :=
  u32 (Z.shiftl (len8 d) 3 - header_skip raw d).

(** A packet as the producer hands it over: the bytes of all its segments,
    which start with the descriptor. *)
Definition pkt_desc (p : list byte) : vmpacket_descriptor :=
  desc_of_bytes (firstn (Z.to_nat sizeof_desc) p).

(** The descriptor agrees with the packet: [len8], a 16-bit field, counts
    the whole packet in units of 8 bytes and [offset8] points inside it. *)
Definition pkt_ok (p : list byte) : Prop :=
  0 < sizeof_desc <= zlen p /\
  8 * len8 (pkt_desc p) = zlen p /\
  len8 (pkt_desc p) < 2 ^ 16 /\
  0 <= 8 * offset8 (pkt_desc p) <= zlen p.

Definition pkt_skip (raw : bool) (p : list byte) : Z :=
  if raw then 0 else 8 * offset8 (pkt_desc p).

Definition pkt_payload (raw : bool) (p : list byte) : list byte :=
  skipn (Z.to_nat (pkt_skip raw p)) p.

(** [holds ri q]: [ri] is reached from an empty ring by successful writes
    and reads (and mask changes of the consumer), and [q] lists, oldest
    first, the packets written and not read yet. *)
Inductive holds : hv_ring_buffer_info -> list (list byte) -> Prop :=
| holds_empty ri rb :
    ring_wf ri rb -> read_index rb = write_index rb -> holds ri []
| holds_write ri q kv_list sg lock sg' ri' :
    holds ri q -> pkt_ok (concat kv_list) ->
    hv_ringbuffer_write ri kv_list sg lock = Some (0, sg', ri') ->
    holds ri' (q ++ [concat kv_list])
| holds_read ri p q o buflen raw o' ri' :
    holds ri (p :: q) ->
    hv_ringbuffer_read ri o buflen raw = Some (0, o', ri') ->
    holds ri' q
| holds_begin_read ri q ri' :
    holds ri q -> hv_begin_read ri = Some ri' -> holds ri' q
| holds_end_read ri q n ri' :
    holds ri q -> hv_end_read ri = Some (n, ri') -> holds ri' q.

(** [framed q s]: the byte stream [s] is the packets of [q] in order, each
    followed by its 8-byte back-link. *)
Inductive framed : list (list byte) -> list byte -> Prop :=
| framed_nil : framed [] []
| framed_cons p link q s :
    length link = 8%nat -> framed q s -> framed (p :: q) (p ++ link ++ s).

(** [repr ri q]: the unread bytes of a checked ring, from the read index to
    the write index, are the packets of [q] with their back-links. *)
Definition repr (ri : hv_ring_buffer_info) (q : list (list byte)) : Prop :=
  exists rb stream,
    ring_wf ri rb /\ framed q stream /\ Forall pkt_ok q /\
    zlen stream < ring_datasize ri /\
    write_index rb = (read_index rb + zlen stream) mod ring_datasize ri /\
    ring_slice (buffer rb) (ring_datasize ri) (read_index rb)
      (length stream) = stream.

End Packets.

(** ** A concrete layout and concrete rings *)

Definition sub_bytes (l : list byte) (off n : nat) : list byte :=
  firstn n (skipn off l).

(** The descriptor of include/linux/hyperv.h on a little-endian machine:
    u16 type, u16 offset8, u16 len8, u16 flags, u64 trans_id. *)
Definition linux_desc_of_bytes (bs : list byte) : vmpacket_descriptor :=
  mk_desc (le_value (sub_bytes bs 2 2)) (le_value (sub_bytes bs 4 2))
    (le_value (sub_bytes bs 8 8)).

Definition linux_layout : Layout :=
  mk_layout 4096 4096 16 linux_desc_of_bytes.

Definition linux_desc_bytes (type off8 l8 flags tid : Z) : list byte :=
  le_bytes 2 type ++ le_bytes 2 off8 ++ le_bytes 2 l8 ++ le_bytes 2 flags
  ++ le_bytes 8 tid.

(** A ring of 64 data bytes, all zero, with the given indices and fields. *)
Definition ring64 (w r mask pending : Z) : hv_ring_buffer_info :=
  mk_ring_info (Some (mk_ring_buffer w r mask pending 1 (repeat x00 64)))
    4160 64.

(** A packet of 24 bytes: the descriptor (offset8 = 2, len8 = 3,
    transaction id 77) and 8 payload bytes. *)
Definition pkt24 : list kvec :=
  [linux_desc_bytes 6 2 3 0 77; [x01; x02; x03; x04; x05; x06; x07; x08]].

(** The caller's locations before a read: a destination of [n] bytes and
    stale values behind the three pointers. *)
Definition outs0 (n : nat) : read_outs := mk_outs (repeat xff n) 5 9 false.

(** The endpoint a write leaves behind (the endpoint itself when the write
    does not go through). *)
Definition after_write (ri : hv_ring_buffer_info) (kv_list : list kvec)
    : hv_ring_buffer_info :=
  match hv_ringbuffer_write ri kv_list false true with
  | Some (0, _, ri') => ri'
  | _ => ri
  end.

(** A packet of 16 bytes: only the descriptor (offset8 = 2, len8 = 2,
    transaction id 78). *)
Definition pkt16 : list kvec := [linux_desc_bytes 6 2 2 0 78].

(** The control block an endpoint points at. *)
Definition ring_of (ri : hv_ring_buffer_info) : hv_ring_buffer :=
  match ring_buffer ri with
  | Some rb => rb
  | None => mk_ring_buffer 0 0 0 0 0 []
  end.

(** The endpoint a read leaves behind. *)
Definition after_read (ri : hv_ring_buffer_info) (buflen : Z) (raw : bool)
    : hv_ring_buffer_info :=
  match hv_ringbuffer_read (L := linux_layout) ri (outs0 (Z.to_nat buflen))
          buflen raw with
  | Some (_, _, ri') => ri'
  | None => ri
  end.

(** What a caller looks at after a read: the return value, the length and
    the request id. *)
Definition read_summary (r : option (Z * read_outs * hv_ring_buffer_info))
    : option (Z * Z * Z) :=
  match r with
  | Some (ret, o, _) => Some (ret, buffer_actual_len o, requestid o)
  | None => None
  end.

(** [ring64] with both indices at 56 and [pkt24] written: the packet and its
    back-link wrap around the end of the data region. *)
Definition ring64_pkt (mask pending : Z) : hv_ring_buffer_info :=
  after_write (ring64 56 56 mask pending) pkt24.

(** * Verification *)

(** ** Arithmetic *)

Lemma u32_small x : 0 <= x < 2 ^ 32 -> u32 x = x.
Proof. intros H. unfold u32. now apply Z.mod_small. Qed.

Lemma u64_small x : 0 <= x < 2 ^ 64 -> u64 x = x.
Proof. intros H. unfold u64. now apply Z.mod_small. Qed.

Lemma shiftl3 x : Z.shiftl x 3 = 8 * x.
Proof. rewrite Z.shiftl_mul_pow2 by lia. change (2 ^ 3) with 8. lia. Qed.

Lemma mod_hi x s : s <= x < 2 * s -> x mod s = x - s.
Proof.
  intros H. symmetry. apply Z.mod_unique with (q := 1); lia.
Qed.

Lemma mod_neg x s : - s <= x < 0 -> x mod s = x + s.
Proof.
  intros H. symmetry. apply Z.mod_unique with (q := -1); lia.
Qed.

Lemma umod_pos a b : b <> 0 -> umod a b = Some (a mod b).
Proof.
  intros H. unfold umod. destruct (Z.eqb_spec b 0); [contradiction | reflexivity].
Qed.

(** Splits on where [x] lies and replaces [x mod s] by its value. *)
Ltac zmod x s :=
  let H := fresh "Hm" in
  first
    [ assert (H : x mod s = x) by (apply Z.mod_small; lia)
    | assert (H : x mod s = x - s) by (apply mod_hi; lia)
    | assert (H : x mod s = x + s) by (apply mod_neg; lia) ];
  rewrite ?H in *.

(** Case analysis on the comparisons of a goal. *)
Ltac zbool :=
  rewrite ?Z.gtb_ltb, ?Z.geb_leb in *;
  repeat match goal with
  | |- context [?a <? ?b] => destruct (Z.ltb_spec a b)
  | |- context [?a <=? ?b] => destruct (Z.leb_spec a b)
  | |- context [?a =? ?b] => destruct (Z.eqb_spec a b)
  end; simpl; try lia.

(** ** Bytes in lists *)

Lemma zlen_nonneg l : 0 <= zlen l.
Proof. unfold zlen. lia. Qed.

Lemma znth_0 a l : znth 0 (a :: l) = a.
Proof. reflexivity. Qed.

Lemma znth_cons k a l : 0 < k -> znth k (a :: l) = znth (k - 1) l.
Proof.
  intros H. unfold znth.
  destruct (Z.ltb_spec k 0); [lia |]. destruct (Z.ltb_spec (k - 1) 0); [lia |].
  replace (Z.to_nat k) with (S (Z.to_nat (k - 1))) by lia. reflexivity.
Qed.

Lemma znth_ext l1 l2 :
  length l1 = length l2 ->
  (forall i, 0 <= i < zlen l1 -> znth i l1 = znth i l2) -> l1 = l2.
Proof.
  intros Hl H. apply nth_ext with (d := x00) (d' := x00); [exact Hl |].
  intros n Hn. specialize (H (Z.of_nat n)). unfold znth, zlen in H.
  destruct (Z.ltb_spec (Z.of_nat n) 0); [lia |].
  rewrite Nat2Z.id in H. apply H. lia.
Qed.

Lemma ztab_length n f : length (ztab n f) = n.
Proof. unfold ztab. now rewrite length_map, length_seq. Qed.

Lemma zlen_ztab n f : zlen (ztab n f) = Z.of_nat n.
Proof. unfold zlen. now rewrite ztab_length. Qed.

Lemma znth_ztab n f i : 0 <= i < Z.of_nat n -> znth i (ztab n f) = f i.
Proof.
  intros H. unfold znth, ztab. destruct (Z.ltb_spec i 0); [lia |].
  rewrite nth_indep with (d' := f 0) by (rewrite length_map, length_seq; lia).
  change (f 0) with ((fun i => f (Z.of_nat i)) 0%nat).
  rewrite map_nth, seq_nth by lia. simpl. f_equal. lia.
Qed.

Lemma ztab_ext n f g :
  (forall i, 0 <= i < Z.of_nat n -> f i = g i) -> ztab n f = ztab n g.
Proof.
  intros H. apply znth_ext; [now rewrite !ztab_length |].
  intros i Hi. unfold zlen in Hi. rewrite ztab_length in Hi.
  rewrite !znth_ztab by lia. now apply H.
Qed.

Lemma znth_app i l1 l2 :
  0 <= i ->
  znth i (l1 ++ l2) = if i <? zlen l1 then znth i l1 else znth (i - zlen l1) l2.
Proof.
  intros H. unfold znth, zlen.
  destruct (Z.ltb_spec i 0); [lia |].
  destruct (Z.ltb_spec i (Z.of_nat (length l1))).
  - apply app_nth1. lia.
  - destruct (Z.ltb_spec (i - Z.of_nat (length l1)) 0); [lia |].
    rewrite app_nth2 by lia. f_equal. lia.
Qed.

Lemma znth_skipn i k l :
  0 <= i -> znth i (skipn k l) = znth (i + Z.of_nat k) l.
Proof.
  intros H. unfold znth.
  destruct (Z.ltb_spec i 0); [lia |].
  destruct (Z.ltb_spec (i + Z.of_nat k) 0); [lia |].
  rewrite nth_skipn. f_equal. lia.
Qed.

Lemma znth_firstn i k l :
  0 <= i < Z.of_nat k -> znth i (firstn k l) = znth i l.
Proof.
  intros H. unfold znth. destruct (Z.ltb_spec i 0); [lia |].
  rewrite nth_firstn. destruct (Nat.ltb_spec (Z.to_nat i) k); [reflexivity | lia].
Qed.

Lemma memcpy_at_length dst : forall j doff src soff n,
  length (memcpy_at j dst doff src soff n) = length dst.
Proof.
  induction dst as [| b dst IH]; intros; simpl; [reflexivity | now rewrite IH].
Qed.

Lemma memcpy_length dst doff src soff n :
  length (memcpy dst doff src soff n) = length dst.
Proof. apply memcpy_at_length. Qed.

Lemma zlen_memcpy dst doff src soff n :
  zlen (memcpy dst doff src soff n) = zlen dst.
Proof. unfold zlen. now rewrite memcpy_length. Qed.

Lemma znth_memcpy_at dst doff src soff n : forall j k,
  0 <= k < zlen dst ->
  znth k (memcpy_at j dst doff src soff n) =
  if (doff <=? j + k) && (j + k <? doff + n)
  then znth (soff + (j + k - doff)) src else znth k dst.
Proof.
  induction dst as [| b dst IH]; intros j k Hk.
  - unfold zlen in Hk. simpl in Hk. lia.
  - simpl memcpy_at. destruct (Z.eq_dec k 0) as [-> | Hne].
    + rewrite !znth_0. now rewrite Z.add_0_r.
    + rewrite !znth_cons by lia. rewrite IH.
      * now replace (j + 1 + (k - 1)) with (j + k) by lia.
      * unfold zlen in *. simpl length in Hk. lia.
Qed.

Lemma znth_memcpy dst doff src soff n k :
  0 <= k < zlen dst ->
  znth k (memcpy dst doff src soff n) =
  if (doff <=? k) && (k <? doff + n)
  then znth (soff + (k - doff)) src else znth k dst.
Proof. intros H. unfold memcpy. now rewrite znth_memcpy_at. Qed.

Lemma some_triple_inj {A B C : Type} (a a' : A) (b b' : B) (c c' : C) :
  Some (a, b, c) = Some (a', b', c') -> a = a' /\ b = b' /\ c = c'.
Proof. intros H. injection H. auto. Qed.

(** ** The control block under the helpers *)

Lemma availbytes_eq ri rb :
  ring_buffer ri = Some rb ->
  hv_get_ringbuffer_availbytes ri =
  Some ((write_index rb - read_index rb) mod ring_datasize ri,
        ring_datasize ri
        - (write_index rb - read_index rb) mod ring_datasize ri).
Proof. intros H. unfold hv_get_ringbuffer_availbytes. now rewrite H. Qed.

Lemma copyto_eq ri rb off src n :
  ring_buffer ri = Some rb -> ring_datasize ri <> 0 ->
  exists b,
    hv_copyto_ringbuffer ri off src n =
    Some (with_ring ri (set_buffer rb b), u32 (off + n) mod ring_datasize ri)
    /\ length b = length (buffer rb).
Proof.
  intros Hrb Hs. unfold hv_copyto_ringbuffer, hv_get_ring_buffersize.
  rewrite Hrb, umod_pos by exact Hs.
  eexists. split; [reflexivity |].
  destruct (n >? u32 (ring_datasize ri - off)); now rewrite !memcpy_length.
Qed.

Lemma copyfrom_eq ri rb dst n off :
  ring_buffer ri = Some rb -> ring_datasize ri <> 0 ->
  exists d,
    hv_copyfrom_ringbuffer ri dst n off =
    Some (d, u32 (off + n) mod ring_datasize ri)
    /\ length d = length dst.
Proof.
  intros Hrb Hs.
  unfold hv_copyfrom_ringbuffer, hv_get_ring_buffer, hv_get_ring_buffersize.
  rewrite Hrb, umod_pos by exact Hs.
  eexists. split; [reflexivity |].
  destruct (n >? u32 (ring_datasize ri - off)); now rewrite !memcpy_length.
Qed.

(** The copy into the ring lays the source down around the end. *)
Lemma copyto_spec ri rb off src :
  ring_buffer ri = Some rb ->
  0 < ring_datasize ri <= 2 ^ 31 ->
  zlen (buffer rb) = ring_datasize ri ->
  0 <= off < ring_datasize ri ->
  zlen src <= ring_datasize ri ->
  hv_copyto_ringbuffer ri off src (zlen src) =
  Some (with_ring ri
          (set_buffer rb (circ_write (buffer rb) (ring_datasize ri) off src)),
        (off + zlen src) mod ring_datasize ri).
Proof.
  intros Hrb Hs Hlen Hoff Hn.
  pose proof (zlen_nonneg src) as Hn0.
  unfold hv_copyto_ringbuffer, hv_get_ring_buffersize.
  rewrite Hrb, umod_pos by lia.
  rewrite (u32_small (off + zlen src)) by lia.
  rewrite (u32_small (ring_datasize ri - off)) by lia.
  do 4 f_equal.
  set (s := ring_datasize ri) in *. set (n := zlen src) in *.
  apply znth_ext.
  - unfold circ_write. rewrite ztab_length.
    destruct (n >? s - off); now rewrite !memcpy_length.
  - intros j Hj.
    assert (Hj' : 0 <= j < s).
    { destruct (n >? s - off); rewrite !zlen_memcpy in Hj; lia. }
    unfold circ_write. rewrite znth_ztab by (fold (zlen (buffer rb)); lia).
    fold n. destruct (Z.ltb_spec (s - off) n) as [Hw | Hw];
      rewrite Z.gtb_ltb; [apply Z.ltb_lt in Hw as Hw' | apply Z.ltb_ge in Hw as Hw'];
      rewrite Hw'.
    + rewrite (u32_small (n - (s - off))) by lia.
      rewrite znth_memcpy by (rewrite zlen_memcpy; lia).
      rewrite znth_memcpy by lia.
      destruct (Z_lt_ge_dec j off).
      * zmod (j - off) s. zbool; f_equal; lia.
      * zmod (j - off) s. zbool; f_equal; lia.
    + rewrite znth_memcpy by lia.
      destruct (Z_lt_ge_dec j off).
      * zmod (j - off) s. zbool; f_equal; lia.
      * zmod (j - off) s. zbool; f_equal; lia.
Qed.

Lemma copyto_spec_n ri rb off src n :
  n = zlen src ->
  ring_buffer ri = Some rb ->
  0 < ring_datasize ri <= 2 ^ 31 ->
  zlen (buffer rb) = ring_datasize ri ->
  0 <= off < ring_datasize ri ->
  zlen src <= ring_datasize ri ->
  hv_copyto_ringbuffer ri off src n =
  Some (with_ring ri
          (set_buffer rb (circ_write (buffer rb) (ring_datasize ri) off src)),
        (off + n) mod ring_datasize ri).
Proof. intros ->. apply copyto_spec. Qed.

(** The copy out of the ring reads the slice around the end. *)
Lemma copyfrom_spec ri rb dst n off :
  ring_buffer ri = Some rb ->
  0 < ring_datasize ri <= 2 ^ 31 ->
  zlen (buffer rb) = ring_datasize ri ->
  0 <= off < ring_datasize ri ->
  0 <= n <= ring_datasize ri ->
  n <= zlen dst ->
  hv_copyfrom_ringbuffer ri dst n off =
  Some (ring_slice (buffer rb) (ring_datasize ri) off (Z.to_nat n)
          ++ skipn (Z.to_nat n) dst,
        (off + n) mod ring_datasize ri).
Proof.
  intros Hrb Hs Hlen Hoff Hn Hd.
  unfold hv_copyfrom_ringbuffer, hv_get_ring_buffer, hv_get_ring_buffersize.
  rewrite Hrb, umod_pos by lia.
  rewrite (u32_small (off + n)) by lia.
  rewrite (u32_small (ring_datasize ri - off)) by lia.
  do 2 f_equal.
  set (s := ring_datasize ri) in *.
  assert (Hlr : length (ring_slice (buffer rb) s off (Z.to_nat n)
                        ++ skipn (Z.to_nat n) dst) = length dst).
  { rewrite length_app, length_skipn. unfold ring_slice.
    rewrite ztab_length. unfold zlen in Hd. lia. }
  apply znth_ext.
  - rewrite Hlr. destruct (n >? s - off); now rewrite !memcpy_length.
  - intros i Hi.
    assert (Hi' : 0 <= i < zlen dst).
    { destruct (n >? s - off); rewrite !zlen_memcpy in Hi; lia. }
    rewrite znth_app by lia. unfold ring_slice.
    rewrite zlen_ztab, Z2Nat.id by lia.
    destruct (Z.ltb_spec i n) as [Hin | Hin].
    + rewrite znth_ztab by lia.
      destruct (Z.ltb_spec (s - off) n) as [Hw | Hw];
        rewrite Z.gtb_ltb; [apply Z.ltb_lt in Hw as Hw' | apply Z.ltb_ge in Hw as Hw'];
        rewrite Hw'.
      * rewrite (u32_small (n - (s - off))) by lia.
        rewrite znth_memcpy by (rewrite zlen_memcpy; lia).
        rewrite znth_memcpy by lia.
        destruct (Z_lt_ge_dec (off + i) s).
        -- zmod (off + i) s. zbool; f_equal; lia.
        -- zmod (off + i) s. zbool; f_equal; lia.
      * rewrite znth_memcpy by lia.
        zmod (off + i) s. zbool; f_equal; lia.
    + rewrite znth_skipn by lia.
      replace (i - n + Z.of_nat (Z.to_nat n)) with i by lia.
      destruct (Z.ltb_spec (s - off) n) as [Hw | Hw];
        rewrite Z.gtb_ltb; [apply Z.ltb_lt in Hw as Hw' | apply Z.ltb_ge in Hw as Hw'];
        rewrite Hw'.
      * rewrite (u32_small (n - (s - off))) by lia.
        rewrite znth_memcpy by (rewrite zlen_memcpy; lia).
        rewrite znth_memcpy by lia.
        zbool; reflexivity.
      * rewrite znth_memcpy by lia. zbool; reflexivity.
Qed.

(** ** The write path, case by case *)

Lemma zlen_app l1 l2 : zlen (l1 ++ l2) = zlen l1 + zlen l2.
Proof. unfold zlen. rewrite length_app. lia. Qed.

Lemma sum_iov_len_eq kv_list : forall acc,
  0 <= acc -> acc + zlen (concat kv_list) < 2 ^ 32 ->
  sum_iov_len kv_list acc = acc + zlen (concat kv_list).
Proof.
  induction kv_list as [| kv rest IH]; intros acc Ha Hb; simpl.
  - unfold zlen. simpl. lia.
  - simpl concat in Hb. rewrite zlen_app in Hb.
    pose proof (zlen_nonneg kv). pose proof (zlen_nonneg (concat rest)).
    unfold iov_len. fold (zlen kv). rewrite u32_small by lia.
    rewrite IH by lia. rewrite zlen_app. lia.
Qed.

Lemma copy_kv_list_eq kv_list : forall ri rb off,
  ring_buffer ri = Some rb -> ring_datasize ri <> 0 ->
  exists b off',
    copy_kv_list ri kv_list off = Some (with_ring ri (set_buffer rb b), off')
    /\ length b = length (buffer rb).
Proof.
  induction kv_list as [| kv rest IH]; intros ri rb off Hrb Hs; simpl.
  - exists (buffer rb), off. split; [| reflexivity].
    destruct ri, rb. simpl in Hrb. now rewrite Hrb.
  - destruct (copyto_eq ri rb off (iov_base kv) (u32 (iov_len kv)) Hrb Hs)
      as (b & -> & Hb).
    destruct (IH (with_ring ri (set_buffer rb b)) (set_buffer rb b)
                (u32 (off + u32 (iov_len kv)) mod ring_datasize ri)
                eq_refl Hs) as (b' & off' & -> & Hb').
    exists b', off'. split; [reflexivity |]. simpl in Hb'. congruence.
Qed.

Lemma copy_kv_list_size kv_list : forall ri off ri' off',
  copy_kv_list ri kv_list off = Some (ri', off') ->
  ring_datasize ri' = ring_datasize ri.
Proof.
  induction kv_list as [| kv rest IH]; intros ri off ri' off' H; simpl in H.
  - now injection H as <- _.
  - destruct (hv_copyto_ringbuffer ri off (iov_base kv) (u32 (iov_len kv)))
      as [[ri1 off1] |] eqn:E; [| discriminate].
    apply IH in H. rewrite H. unfold hv_copyto_ringbuffer in E.
    destruct (ring_buffer ri); [| discriminate].
    destruct (umod _ _); [| discriminate]. now injection E as <- _.
Qed.

(** With no data region the write path never reports success: its last
    copy divides by the size. *)
Lemma write_needs_size ri kv_list sg lock sg' ri' :
  hv_ringbuffer_write ri kv_list sg lock = Some (0, sg', ri') ->
  ring_datasize ri <> 0.
Proof.
  intros H Hz. unfold hv_ringbuffer_write in H.
  destruct (hv_get_ringbuffer_availbytes ri) as [[rd wr] |]; [| discriminate].
  destruct (wr <=? _); [discriminate |].
  destruct (hv_get_next_write_location ri); [| discriminate].
  destruct (copy_kv_list ri kv_list z) as [[ri1 off1] |] eqn:E; [| discriminate].
  apply copy_kv_list_size in E.
  destruct (hv_get_ring_bufferindices ri1); [| discriminate].
  unfold hv_copyto_ringbuffer, hv_get_ring_buffersize, umod in H.
  rewrite E, Hz in H. simpl in H.
  destruct (ring_buffer ri1); discriminate.
Qed.

Lemma write_cases ri rb kv_list sg lock :
  ring_buffer ri = Some rb -> ring_datasize ri <> 0 ->
  let total := u32 (sum_iov_len kv_list 0 + 8) in
  let wr := ring_datasize ri
            - (write_index rb - read_index rb) mod ring_datasize ri in
  (wr <= total /\
   hv_ringbuffer_write ri kv_list sg lock = Some (- EAGAIN, sg, ri)) \/
  (total < wr /\
   exists b nxt,
     length b = length (buffer rb) /\
     hv_ringbuffer_write ri kv_list sg lock =
     Some (0, (interrupt_mask rb =? 0) && (write_index rb =? read_index rb),
           with_ring ri (set_write_index (set_buffer rb b) nxt))).
Proof.
  intros Hrb Hs total wr. unfold hv_ringbuffer_write.
  rewrite (availbytes_eq _ _ Hrb). fold total wr.
  destruct (Z.leb_spec wr total) as [Hle | Hlt]; [left; now split | right].
  split; [exact Hlt |].
  unfold hv_get_next_write_location. rewrite Hrb.
  destruct (copy_kv_list_eq kv_list ri rb (write_index rb) Hrb Hs)
    as (b & off & -> & Hb).
  unfold hv_get_ring_bufferindices. simpl ring_buffer.
  destruct (copyto_eq (with_ring ri (set_buffer rb b)) (set_buffer rb b) off
              (le_bytes 8 (u64 (Z.shiftl (write_index (set_buffer rb b)) 32)))
              8 eq_refl Hs) as (b' & -> & Hb').
  unfold hv_set_next_write_location, hv_need_to_signal. simpl.
  exists b', (u32 (off + 8) mod ring_datasize ri).
  split; [simpl in Hb'; congruence |].
  destruct (interrupt_mask rb =? 0); simpl; [| reflexivity].
  now destruct (write_index rb =? read_index rb).
Qed.

(** ** The read path, case by case *)

Section ReadCases.
Context {L : Layout}.

Lemma need_to_signal_on_read_eq prev ri rb :
  ring_buffer ri = Some rb ->
  0 < ring_datasize ri <= 2 ^ 31 ->
  0 <= read_index rb < ring_datasize ri ->
  0 <= write_index rb < ring_datasize ri ->
  hv_need_to_signal_on_read prev ri =
  Some (negb (pending_send_sz rb =? 0)
        && (prev <? pending_send_sz rb)
        && (pending_send_sz rb <=?
            ring_datasize ri
            - (write_index rb - read_index rb) mod ring_datasize ri)).
Proof.
  intros Hrb Hs Hr Hw. unfold hv_need_to_signal_on_read. rewrite Hrb.
  destruct (pending_send_sz rb =? 0); [reflexivity |]. simpl negb.
  rewrite Z.geb_leb. cbv zeta.
  destruct (Z_lt_ge_dec (write_index rb) (read_index rb)).
  - zmod (write_index rb - read_index rb) (ring_datasize ri).
    rewrite Z.geb_leb. destruct (Z.leb_spec (read_index rb) (write_index rb)); [lia |].
    rewrite u32_small by lia.
    replace (ring_datasize ri - (write_index rb - read_index rb + ring_datasize ri))
      with (read_index rb - write_index rb) by lia.
    now destruct (_ && _).
  - zmod (write_index rb - read_index rb) (ring_datasize ri).
    rewrite Z.geb_leb. destruct (Z.leb_spec (read_index rb) (write_index rb)); [| lia].
    rewrite (u32_small (write_index rb - read_index rb)) by lia.
    rewrite u32_small by lia.
    now destruct (_ && _).
Qed.

Lemma need_to_signal_on_read_total prev ri rb :
  ring_buffer ri = Some rb ->
  exists sgn, hv_need_to_signal_on_read prev ri = Some sgn.
Proof.
  intros Hrb. unfold hv_need_to_signal_on_read. rewrite Hrb.
  destruct (pending_send_sz rb =? 0); [eexists; reflexivity |].
  cbv zeta.
  match goal with
  | |- context [if ?c then Some true else Some false] => destruct c
  end; eexists; reflexivity.
Qed.

Lemma read_cases ri rb o buflen raw :
  ring_buffer ri = Some rb -> ring_datasize ri <> 0 ->
  let rd := (write_index rb - read_index rb) mod ring_datasize ri in
  let wr := ring_datasize ri - rd in
  exists d buf nxt sgn,
    peek_desc ri = Some d /\
    (exists nx,
       hv_copyfrom_ringbuffer ri (dest o) (payload_len raw d)
         (u32 (read_index rb + header_skip raw d) mod ring_datasize ri)
       = Some (buf, nx)) /\
    nxt = u32 (u32 (u32 (read_index rb + header_skip raw d)
                    mod ring_datasize ri + payload_len raw d)
               mod ring_datasize ri + 8) mod ring_datasize ri /\
    hv_need_to_signal_on_read wr (with_ring ri (set_read_index rb nxt))
      = Some sgn /\
    hv_ringbuffer_read ri o buflen raw =
    Some (if buflen <=? 0 then (- EINVAL, o, ri)
          else if rd <? sizeof_desc
          then (0, mk_outs (dest o) 0 0 (signal o), ri)
          else if rd <? u32 (payload_len raw d + header_skip raw d)
          then (- EAGAIN,
                mk_outs (dest o) (payload_len raw d) (trans_id d) (signal o),
                ri)
          else if payload_len raw d >? buflen
          then (- ENOBUFS,
                mk_outs (dest o) (payload_len raw d) (trans_id d) (signal o),
                ri)
          else (0, mk_outs buf (payload_len raw d) (trans_id d) sgn,
                with_ring ri (set_read_index rb nxt))).
Proof.
  intros Hrb Hs rd wr.
  unfold hv_ringbuffer_read, peek_desc.
  rewrite (availbytes_eq _ _ Hrb). fold rd wr.
  unfold hv_get_next_read_location, hv_get_next_readlocation_withoffset.
  rewrite Hrb.
  destruct (copyfrom_eq ri rb (repeat x00 (Z.to_nat sizeof_desc))
              (u32 sizeof_desc) (read_index rb) Hrb Hs) as (bytes & -> & _).
  cbv beta iota zeta.
  set (d := desc_of_bytes bytes).
  fold (header_skip raw d). fold (payload_len raw d).
  rewrite umod_pos by exact Hs.
  destruct (copyfrom_eq ri rb (dest o) (payload_len raw d)
              (u32 (read_index rb + header_skip raw d) mod ring_datasize ri)
              Hrb Hs) as (buf & Ebuf & Hbuf).
  simpl dest. rewrite Ebuf.
  match type of Ebuf with _ = Some (_, ?n1) =>
    destruct (copyfrom_eq ri rb (le_bytes 8 0) 8 n1 Hrb Hs) as (lk & -> & _);
    set (nxt := u32 (n1 + 8) mod ring_datasize ri)
  end.
  unfold hv_set_next_read_location. rewrite Hrb.
  assert (Hsg : exists sgn,
            hv_need_to_signal_on_read wr
              (with_ring ri (set_read_index rb nxt)) = Some sgn).
  { now apply need_to_signal_on_read_total with (rb := set_read_index rb nxt). }
  destruct Hsg as (sgn & Hsg). rewrite Hsg.
  exists d, buf, nxt, sgn.
  split; [reflexivity |]. split; [eexists; exact Ebuf |].
  split; [reflexivity |]. split; [exact Hsg |].
  destruct (buflen <=? 0); [reflexivity |].
  destruct (rd <? sizeof_desc); [reflexivity |].
  destruct (rd <? _); [reflexivity |].
  destruct (payload_len raw d >? buflen); reflexivity.
Qed.

End ReadCases.

(** ** The claims on single calls *)

(** C10: the diagnostics snapshot writes its five fields (bytes available to
    read and to write, read index, write index, interrupt mask) only when the
    endpoint's control-block pointer is not null; with a null pointer it
    returns the output structure as it was. *)
Theorem debuginfo_only_when_mapped ri debug_info :
  (ring_buffer ri = None ->
   hv_ringbuffer_get_debuginfo ri debug_info = Some debug_info) /\
  (forall rb, ring_buffer ri = Some rb ->
   exists rd wr,
     hv_get_ringbuffer_availbytes ri = Some (rd, wr) /\
     hv_ringbuffer_get_debuginfo ri debug_info =
     Some {| bytes_avail_toread := rd;
             bytes_avail_towrite := wr;
             current_read_index := read_index rb;
             current_write_index := write_index rb;
             current_interrupt_mask := interrupt_mask rb |}).
Proof.
  split.
  - intros H. unfold hv_ringbuffer_get_debuginfo. now rewrite H.
  - intros rb H. unfold hv_ringbuffer_get_debuginfo.
    rewrite (availbytes_eq _ _ H), H.
    do 2 eexists. split; reflexivity.
Qed.

(** C3: the flag a successful write reports is true exactly when
    interrupt_mask is zero and the write index taken before the write equals
    the read index found at the check (which the write leaves as it was). *)
Theorem write_signal_empty_to_nonempty ri rb kv_list sg lock sg' ri' :
  ring_buffer ri = Some rb ->
  hv_ringbuffer_write ri kv_list sg lock = Some (0, sg', ri') ->
  sg' = (interrupt_mask rb =? 0) && (write_index rb =? read_index rb) /\
  exists rb',
    ring_buffer ri' = Some rb' /\
    read_index rb' = read_index rb /\
    interrupt_mask rb' = interrupt_mask rb.
Proof.
  intros Hrb H. pose proof (write_needs_size _ _ _ _ _ _ H) as Hs.
  destruct (write_cases ri rb kv_list sg lock Hrb Hs)
    as [(_ & E) | (_ & b & nxt & _ & E)];
    rewrite E in H; [discriminate |].
  injection H as <- <-. split; [reflexivity |].
  eexists. split; [reflexivity |]. split; reflexivity.
Qed.

(** C2: with [L] payload bytes in the segments (and [L + 8] fitting the u32
    the total is summed in), the write fails with the ring-full error exactly
    when available-to-write is at most [L + 8], it then changes neither the
    endpoint nor the flag, and it succeeds as soon as available-to-write is
    larger than [L + 8]. *)
Theorem write_full_margin ri rb kv_list sg lock rd wr :
  ring_wf ri rb ->
  zlen (concat kv_list) + 8 < 2 ^ 32 ->
  hv_get_ringbuffer_availbytes ri = Some (rd, wr) ->
  exists r sg' ri',
    hv_ringbuffer_write ri kv_list sg lock = Some (r, sg', ri') /\
    (r = - EAGAIN <-> wr <= zlen (concat kv_list) + 8) /\
    (r = 0 <-> zlen (concat kv_list) + 8 < wr) /\
    (r = - EAGAIN -> sg' = sg /\ ri' = ri).
Proof.
  intros Hwf Hfit Hav. destruct Hwf as (Hrb & Hs & _).
  rewrite (availbytes_eq _ _ Hrb) in Hav. injection Hav as <- <-.
  pose proof (zlen_nonneg (concat kv_list)) as Hl.
  assert (Hnz : ring_datasize ri <> 0) by lia.
  destruct (write_cases ri rb kv_list sg lock Hrb Hnz)
    as [(Hle & E) | (Hlt & b & nxt & _ & E)];
    rewrite sum_iov_len_eq, u32_small in * by lia; simpl in *;
    rewrite E; do 3 eexists; (split; [reflexivity |]); unfold EAGAIN.
  - repeat split; intros; lia.
  - repeat split; intros; lia.
Qed.

Section CallClaims.
Context {L : Layout}.

(** C6, amended: initialisation fails with the invalid-argument error
    exactly when the size of the control-block structure differs from the
    page size, whatever length is supplied, and then leaves the endpoint as
    it was; otherwise it succeeds for every length, the endpoint points at
    the region, both indices are zero, the feature word is 1 (the
    flow-control bit), the length is cached and so is the data size, the
    length minus the size of the structure (in u32). *)
Theorem init_contract ri region buflen :
  (sizeof_hv_ring_buffer <> PAGE_SIZE ->
   hv_ringbuffer_init ri region buflen = Some (- EINVAL, ri)) /\
  (sizeof_hv_ring_buffer = PAGE_SIZE -> forall rb, region = Some rb ->
   exists rb',
     hv_ringbuffer_init ri region buflen =
     Some (0, mk_ring_info (Some rb') buflen
                (u32 (buflen - sizeof_hv_ring_buffer))) /\
     read_index rb' = 0 /\ write_index rb' = 0 /\
     feature_bits rb' = 1 /\ Z.testbit (feature_bits rb') 0 = true /\
     interrupt_mask rb' = interrupt_mask rb /\
     pending_send_sz rb' = pending_send_sz rb /\
     buffer rb' = buffer rb).
Proof.
  unfold hv_ringbuffer_init. split.
  - intros H. destruct (Z.eqb_spec sizeof_hv_ring_buffer PAGE_SIZE);
      [contradiction | reflexivity].
  - intros H rb ->. rewrite H, Z.eqb_refl. simpl.
    eexists. split; [reflexivity |]. repeat split.
Qed.

(** C8: with a destination capacity above zero and fewer bytes to read than
    a descriptor, the read returns 0 (no error), reports length zero and
    request id zero, and leaves the endpoint, the destination and the flag
    as they were. *)
Theorem read_nothing_yet ri o buflen raw rd wr :
  0 < buflen ->
  hv_get_ringbuffer_availbytes ri = Some (rd, wr) ->
  rd < sizeof_desc ->
  hv_ringbuffer_read ri o buflen raw =
  Some (0, mk_outs (dest o) 0 0 (signal o), ri).
Proof.
  intros Hb Hav Hrd. unfold hv_ringbuffer_read. rewrite Hav.
  destruct (Z.leb_spec buflen 0); [lia |].
  destruct (Z.ltb_spec rd sizeof_desc); [reflexivity | lia].
Qed.

(** C5, amended: when the ring holds a complete packet whose decoded payload
    length exceeds the destination capacity and the capacity is above zero,
    the read fails with the buffer-too-small error and the endpoint (the read
    index with it) is as before, the two out-parameters carrying the decoded
    length and id; with a capacity of zero the read fails with the
    invalid-argument error instead, the endpoint again as before. *)
Theorem read_buffer_too_small ri o buflen raw rd wr d :
  hv_get_ringbuffer_availbytes ri = Some (rd, wr) ->
  peek_desc ri = Some d ->
  sizeof_desc <= rd ->
  u32 (payload_len raw d + header_skip raw d) <= rd ->
  buflen < payload_len raw d ->
  (0 < buflen ->
   hv_ringbuffer_read ri o buflen raw =
   Some (- ENOBUFS,
         mk_outs (dest o) (payload_len raw d) (trans_id d) (signal o), ri)) /\
  (buflen <= 0 ->
   hv_ringbuffer_read ri o buflen raw = Some (- EINVAL, o, ri)).
Proof.
  intros Hav Hd Hrd Hfull Hsmall.
  unfold hv_ringbuffer_read. split; intros Hb.
  - destruct (Z.leb_spec buflen 0); [lia |]. rewrite Hav.
    destruct (Z.ltb_spec rd sizeof_desc); [lia |].
    unfold peek_desc in Hd.
    destruct (hv_get_next_read_location ri) as [nx0 |]; [| discriminate].
    destruct (hv_copyfrom_ringbuffer ri _ _ nx0) as [[bytes nx] |];
      [| discriminate].
    injection Hd as <-. cbv beta iota zeta.
    fold (header_skip raw (desc_of_bytes bytes)).
    fold (payload_len raw (desc_of_bytes bytes)).
    destruct (Z.ltb_spec rd
                (u32 (payload_len raw (desc_of_bytes bytes)
                      + header_skip raw (desc_of_bytes bytes)))); [lia |].
    rewrite Z.gtb_ltb.
    destruct (Z.ltb_spec buflen (payload_len raw (desc_of_bytes bytes)));
      [reflexivity | lia].
  - destruct (Z.leb_spec buflen 0); [reflexivity | lia].
Qed.

(** The payload length of the claim, [len8*8] minus the header skip, is the
    one the code computes whenever the descriptor is in range. *)
Lemma payload_len_exact (raw : bool) (d : vmpacket_descriptor) :
  0 <= (if raw then 0 else 8 * offset8 d) <= 8 * len8 d ->
  8 * len8 d < 2 ^ 32 ->
  header_skip raw d = (if raw then 0 else 8 * offset8 d) /\
  payload_len raw d = 8 * len8 d - (if raw then 0 else 8 * offset8 d).
Proof.
  intros H1 H2. unfold payload_len, header_skip.
  destruct raw; rewrite ?shiftl3, ?u32_small; rewrite ?shiftl3, ?u32_small;
    try lia; split; reflexivity.
Qed.

(** C9, amended: a read with zero capacity fails with the invalid-argument
    error and leaves the out-parameters untouched; any other read first
    zeroes the length and the request id, and once a full descriptor is
    available stores the decoded length and id before the later checks, so
    that they carry the decoded values on success and also when the call
    fails with the try-again or the buffer-too-small error. *)
Theorem read_out_params ri rb o buflen raw rd wr :
  ring_buffer ri = Some rb ->
  ring_datasize ri <> 0 ->
  hv_get_ringbuffer_availbytes ri = Some (rd, wr) ->
  exists r o' ri',
    hv_ringbuffer_read ri o buflen raw = Some (r, o', ri') /\
    (buflen <= 0 -> r = - EINVAL /\ o' = o) /\
    (0 < buflen -> rd < sizeof_desc ->
     r = 0 /\ buffer_actual_len o' = 0 /\ requestid o' = 0) /\
    (0 < buflen -> sizeof_desc <= rd ->
     exists d,
       peek_desc ri = Some d /\
       buffer_actual_len o' = payload_len raw d /\
       requestid o' = trans_id d /\
       (rd < u32 (payload_len raw d + header_skip raw d) -> r = - EAGAIN) /\
       (u32 (payload_len raw d + header_skip raw d) <= rd ->
        buflen < payload_len raw d -> r = - ENOBUFS) /\
       (u32 (payload_len raw d + header_skip raw d) <= rd ->
        payload_len raw d <= buflen -> r = 0)).
Proof.
  intros Hrb Hs Hav.
  rewrite (availbytes_eq _ _ Hrb) in Hav. injection Hav as Hrd Hwr.
  destruct (read_cases ri rb o buflen raw Hrb Hs)
    as (d & buf & nxt & sgn & Hd & _ & _ & _ & E).
  rewrite Hrd in E. rewrite E. clear E.
  destruct (Z.leb_spec buflen 0) as [Hb | Hb].
  { do 3 eexists. split; [reflexivity |].
    split; [now split |]. split; intros; lia. }
  destruct (Z.ltb_spec rd sizeof_desc) as [Hn | Hn].
  { do 3 eexists. split; [reflexivity |].
    split; [intros; lia |]. split; [now repeat split | intros; lia]. }
  rewrite Z.gtb_ltb.
  destruct (Z.ltb_spec rd (u32 (payload_len raw d + header_skip raw d)));
    [| destruct (Z.ltb_spec buflen (payload_len raw d))];
    do 3 eexists; (split; [reflexivity |]);
    (split; [intros; lia |]); (split; [intros; lia |]);
    intros _ _; exists d; simpl; repeat split; intros;
    try reflexivity; try exact Hd; lia.
Qed.

(** C4, corrected: a read that returns 0 reports the flag in one of two
    ways.  When at least a descriptor's bytes were readable, the flag is
    false when pending_send_sz is zero, and otherwise true exactly when
    available-to-write before the read was below pending_send_sz and
    available-to-write after the update of the read index (the data size
    minus the distance from read index to write index, modulo the size) is
    at least pending_send_sz; so it is false whenever available-to-write was
    already at or above pending_send_sz before the read.  When fewer bytes
    were readable, the read returns 0 before the flag is computed: the
    caller's flag is handed back as it was passed in and the endpoint is
    unchanged, although the predicate itself is false there. *)
Theorem read_signal_flow_control ri rb o buflen raw rd wr o' ri' :
  ring_wf ri rb ->
  hv_get_ringbuffer_availbytes ri = Some (rd, wr) ->
  hv_ringbuffer_read ri o buflen raw = Some (0, o', ri') ->
  exists rb',
    ring_buffer ri' = Some rb' /\
    pending_send_sz rb' = pending_send_sz rb /\
    (sizeof_desc <= rd ->
     signal o' =
       negb (pending_send_sz rb' =? 0)
       && (wr <? pending_send_sz rb')
       && (pending_send_sz rb' <=?
           ring_datasize ri'
           - (write_index rb' - read_index rb') mod ring_datasize ri') /\
     (pending_send_sz rb' = 0 -> signal o' = false) /\
     (pending_send_sz rb' <= wr -> signal o' = false)) /\
    (rd < sizeof_desc ->
     signal o' = signal o /\
     ri' = ri /\
     negb (pending_send_sz rb' =? 0)
     && (wr <? pending_send_sz rb')
     && (pending_send_sz rb' <=?
         ring_datasize ri'
         - (write_index rb' - read_index rb') mod ring_datasize ri') = false).
Proof.
  intros (Hrb & Hs & Hr & Hw & _) Hav H.
  rewrite (availbytes_eq _ _ Hrb) in Hav. injection Hav as Hrd Hwr.
  assert (Hnz : ring_datasize ri <> 0) by lia.
  destruct (read_cases ri rb o buflen raw Hrb Hnz)
    as (d & buf & nxt & sgn & _ & _ & Hnxt & Hsg & E).
  rewrite Hrd, Hwr in *. rewrite E in H. clear E.
  assert (Hfin : forall sg rb',
            sg = negb (pending_send_sz rb' =? 0)
                 && (wr <? pending_send_sz rb')
                 && (pending_send_sz rb' <=?
                     ring_datasize ri
                     - (write_index rb' - read_index rb') mod ring_datasize ri) ->
            (pending_send_sz rb' = 0 -> sg = false) /\
            (pending_send_sz rb' <= wr -> sg = false)).
  { intros sg rb' ->. split; intros Hp.
    - now rewrite Hp.
    - destruct (Z.ltb_spec wr (pending_send_sz rb')); [lia |].
      now rewrite andb_false_r. }
  destruct (Z.leb_spec buflen 0); [discriminate |].
  destruct (Z.ltb_spec rd sizeof_desc) as [Hn | Hn].
  - injection H as <- <-.
    exists rb. split; [exact Hrb |]. split; [reflexivity |].
    split; [intros; lia |]. intros _.
    split; [reflexivity |]. split; [reflexivity |].
    rewrite Hrd, Hwr.
    destruct (Z.ltb_spec wr (pending_send_sz rb));
      destruct (Z.leb_spec (pending_send_sz rb) wr); try lia;
      now rewrite ?andb_false_r.
  - destruct (rd <? _); [discriminate |].
    destruct (payload_len raw d >? buflen); [discriminate |].
    injection H as <- <-.
    exists (set_read_index rb nxt). split; [reflexivity |].
    split; [reflexivity |].
    split; [intros _ | intros; lia].
    assert (Hn' : 0 <= nxt < ring_datasize ri).
    { rewrite Hnxt. apply Z.mod_pos_bound. lia. }
    clear Hnxt.
    rewrite (need_to_signal_on_read_eq wr
               (with_ring ri (set_read_index rb nxt)) (set_read_index rb nxt)
               eq_refl) in Hsg by (simpl; lia).
    injection Hsg as Hsg. simpl ring_datasize in *.
    split; [simpl signal; now rewrite <- Hsg |].
    apply Hfin. simpl signal. now rewrite <- Hsg.
Qed.

End CallClaims.

(** ** The data region as a circular array *)

Lemma ring_slice_length ring d off n : length (ring_slice ring d off n) = n.
Proof. apply ztab_length. Qed.

Lemma znth_ring_slice ring d off n i :
  0 <= i < Z.of_nat n ->
  znth i (ring_slice ring d off n) = znth ((off + i) mod d) ring.
Proof. intros H. unfold ring_slice. now rewrite znth_ztab. Qed.

Lemma ztab_znth l : ztab (length l) (fun j => znth j l) = l.
Proof.
  apply znth_ext; [apply ztab_length |].
  intros i Hi. rewrite zlen_ztab in Hi. now rewrite znth_ztab.
Qed.

Lemma circ_write_length ring d off src :
  length (circ_write ring d off src) = length ring.
Proof. apply ztab_length. Qed.

Lemma zlen_circ_write ring d off src :
  zlen (circ_write ring d off src) = zlen ring.
Proof. unfold zlen. now rewrite circ_write_length. Qed.

(** Side conditions on an endpoint whose data region was just written. *)
Ltac ring_side :=
  cbn [ring_buffer ring_datasize buffer with_ring set_buffer];
  rewrite ?zlen_circ_write;
  first [ reflexivity | assumption | lia | apply Z.mod_pos_bound; lia ].

Lemma znth_circ_write ring d off src j :
  0 <= j < zlen ring ->
  znth j (circ_write ring d off src) =
  if (j - off) mod d <? zlen src
  then znth ((j - off) mod d) src else znth j ring.
Proof. intros H. unfold circ_write. now rewrite znth_ztab. Qed.

Lemma circ_write_nil ring d off : 0 < d -> circ_write ring d off [] = ring.
Proof.
  intros Hd. rewrite <- (ztab_znth ring) at 2. unfold circ_write.
  apply ztab_ext. intros j Hj.
  pose proof (Z.mod_pos_bound (j - off) d Hd).
  destruct (Z.ltb_spec ((j - off) mod d) (zlen [])); [| reflexivity].
  unfold zlen in *. simpl in *. lia.
Qed.

Lemma ring_slice_app ring d r a b :
  ring_slice ring d r (a + b) =
  ring_slice ring d r a ++ ring_slice ring d ((r + Z.of_nat a) mod d) b.
Proof.
  apply znth_ext.
  - now rewrite length_app, !ring_slice_length.
  - intros i Hi. unfold zlen in Hi. rewrite ring_slice_length in Hi.
    rewrite znth_ring_slice by lia. rewrite znth_app by lia.
    unfold zlen. rewrite ring_slice_length.
    destruct (Z.ltb_spec i (Z.of_nat a)).
    + now rewrite znth_ring_slice by lia.
    + rewrite znth_ring_slice by lia. rewrite Zplus_mod_idemp_l.
      f_equal. f_equal. lia.
Qed.

(** A part of a slice is a slice. *)
Lemma ring_slice_sub ring d r n a b :
  (a + b <= n)%nat ->
  ring_slice ring d ((r + Z.of_nat a) mod d) b =
  firstn b (skipn a (ring_slice ring d r n)).
Proof.
  intros Hab. apply znth_ext.
  - rewrite ring_slice_length, length_firstn, length_skipn, ring_slice_length.
    lia.
  - intros i Hi. unfold zlen in Hi. rewrite ring_slice_length in Hi.
    rewrite znth_ring_slice by lia.
    rewrite znth_firstn by lia. rewrite znth_skipn by lia.
    rewrite znth_ring_slice by lia. rewrite Zplus_mod_idemp_l.
    f_equal. f_equal. lia.
Qed.

Lemma ring_slice_prefix ring d r n a :
  (a <= n)%nat ->
  ring_slice ring d r a = firstn a (ring_slice ring d r n).
Proof.
  intros Ha. apply znth_ext.
  - rewrite ring_slice_length, length_firstn, ring_slice_length. lia.
  - intros i Hi. unfold zlen in Hi. rewrite ring_slice_length in Hi.
    rewrite znth_firstn by lia. now rewrite !znth_ring_slice by lia.
Qed.

(** What was laid down reads back. *)
Lemma ring_slice_circ_write_same ring d off src :
  zlen ring = d -> 0 <= off < d -> zlen src <= d ->
  ring_slice (circ_write ring d off src) d off (length src) = src.
Proof.
  intros Hlen Hoff Hsrc. apply znth_ext; [apply ring_slice_length |].
  intros i Hi. unfold zlen in Hi. rewrite ring_slice_length in Hi.
  fold (zlen src) in Hi.
  rewrite znth_ring_slice by (fold (zlen src); lia).
  rewrite znth_circ_write by (rewrite Hlen; apply Z.mod_pos_bound; lia).
  rewrite Zminus_mod_idemp_l.
  replace (off + i - off) with i by lia.
  rewrite Z.mod_small by lia.
  destruct (Z.ltb_spec i (zlen src)); [reflexivity | lia].
Qed.

(** The bytes before the place written are as they were. *)
Lemma ring_slice_circ_write_other ring d r a src :
  zlen ring = d -> 0 < d ->
  Z.of_nat a + zlen src <= d ->
  ring_slice (circ_write ring d ((r + Z.of_nat a) mod d) src) d r a =
  ring_slice ring d r a.
Proof.
  intros Hlen Hd Hfit. pose proof (zlen_nonneg src) as Hs0.
  apply znth_ext; [now rewrite !ring_slice_length |].
  intros i Hi. unfold zlen in Hi. rewrite ring_slice_length in Hi.
  rewrite !znth_ring_slice by lia.
  rewrite znth_circ_write by (rewrite Hlen; apply Z.mod_pos_bound; lia).
  rewrite Zminus_mod_idemp_r, Zminus_mod_idemp_l.
  replace (r + i - (r + Z.of_nat a)) with (i - Z.of_nat a) by lia.
  zmod (i - Z.of_nat a) d.
  destruct (Z.ltb_spec (i - Z.of_nat a + d) (zlen src)); [lia | reflexivity].
Qed.

(** Two pieces laid down one after the other are their concatenation laid
    down at once. *)
Lemma circ_write_app ring d off a b :
  zlen ring = d -> 0 < d ->
  zlen a + zlen b <= d ->
  circ_write (circ_write ring d off a) d ((off + zlen a) mod d) b =
  circ_write ring d off (a ++ b).
Proof.
  intros Hlen Hd Hfit.
  pose proof (zlen_nonneg a) as Ha0. pose proof (zlen_nonneg b) as Hb0.
  apply znth_ext; [now rewrite !circ_write_length |].
  intros j Hj. unfold zlen in Hj. rewrite !circ_write_length in Hj.
  fold (zlen ring) in Hj.
  rewrite znth_circ_write
    by (unfold zlen; rewrite circ_write_length; exact Hj).
  rewrite !znth_circ_write by exact Hj.
  rewrite Zminus_mod_idemp_r.
  replace (j - (off + zlen a)) with (j - off - zlen a) by lia.
  rewrite <- (Zminus_mod_idemp_l (j - off)).
  pose proof (Z.mod_pos_bound (j - off) d Hd) as He.
  set (e := (j - off) mod d) in *.
  rewrite zlen_app, znth_app by lia.
  destruct (Z_lt_ge_dec e (zlen a)).
  - zmod (e - zlen a) d. zbool; reflexivity.
  - zmod (e - zlen a) d. zbool; reflexivity.
Qed.

(** ** The write path on a checked ring *)

Lemma copy_kv_list_spec kv_list : forall ri rb off,
  ring_buffer ri = Some rb ->
  0 < ring_datasize ri <= 2 ^ 31 ->
  zlen (buffer rb) = ring_datasize ri ->
  0 <= off < ring_datasize ri ->
  zlen (concat kv_list) <= ring_datasize ri ->
  copy_kv_list ri kv_list off =
  Some (with_ring ri
          (set_buffer rb
             (circ_write (buffer rb) (ring_datasize ri) off
                (concat kv_list))),
        (off + zlen (concat kv_list)) mod ring_datasize ri).
Proof.
  induction kv_list as [| kv rest IH]; intros ri rb off Hrb Hs Hlen Hoff Hfit.
  - simpl. rewrite circ_write_nil by lia.
    unfold zlen at 1. simpl. rewrite Z.add_0_r, Z.mod_small by lia.
    destruct ri, rb. simpl in Hrb. now rewrite Hrb.
  - simpl concat in *. rewrite zlen_app in Hfit.
    pose proof (zlen_nonneg kv). pose proof (zlen_nonneg (concat rest)).
    simpl copy_kv_list. unfold iov_len, iov_base. fold (zlen kv).
    rewrite u32_small by lia.
    rewrite (copyto_spec ri rb off kv Hrb Hs Hlen Hoff) by lia.
    rewrite (IH _ (set_buffer rb
                     (circ_write (buffer rb) (ring_datasize ri) off kv)))
      by ring_side.
    simpl. rewrite circ_write_app by lia.
    rewrite Zplus_mod_idemp_l, zlen_app. do 3 f_equal. lia.
Qed.

Lemma le_bytes_length n : forall v, length (le_bytes n v) = n.
Proof. induction n; intros v; simpl; [reflexivity | now rewrite IHn]. Qed.

(** The write path on a checked ring with room: the segments and the
    back-link are laid down from the write index, which moves past them. *)
Lemma write_spec ri rb kv_list sg lock :
  ring_wf ri rb ->
  zlen (concat kv_list) + 8
  < ring_datasize ri
    - (write_index rb - read_index rb) mod ring_datasize ri ->
  hv_ringbuffer_write ri kv_list sg lock =
  Some (0, (interrupt_mask rb =? 0) && (write_index rb =? read_index rb),
        with_ring ri
          (set_write_index
             (set_buffer rb
                (circ_write (buffer rb) (ring_datasize ri) (write_index rb)
                   (concat kv_list
                    ++ le_bytes 8 (u64 (Z.shiftl (write_index rb) 32)))))
             ((write_index rb + zlen (concat kv_list) + 8)
              mod ring_datasize ri))).
Proof.
  intros (Hrb & Hs & Hr & Hw & Hlen) Hroom.
  pose proof (zlen_nonneg (concat kv_list)) as Hl.
  pose proof (Z.mod_pos_bound (write_index rb - read_index rb)
                (ring_datasize ri) (proj1 Hs)) as Hrd.
  unfold hv_ringbuffer_write. rewrite (availbytes_eq _ _ Hrb).
  rewrite sum_iov_len_eq, u32_small by lia. simpl (0 + _).
  destruct (Z.leb_spec
              (ring_datasize ri
               - (write_index rb - read_index rb) mod ring_datasize ri)
              (zlen (concat kv_list) + 8)); [lia |].
  unfold hv_get_next_write_location. rewrite Hrb.
  rewrite (copy_kv_list_spec kv_list ri rb (write_index rb) Hrb Hs Hlen Hw)
    by lia.
  unfold hv_get_ring_bufferindices.
  cbn [ring_buffer with_ring write_index set_buffer].
  set (link := le_bytes 8 (u64 (Z.shiftl (write_index rb) 32))).
  assert (Hlk : zlen link = 8)
    by (unfold zlen, link; now rewrite le_bytes_length).
  rewrite (copyto_spec_n _ (set_buffer rb
             (circ_write (buffer rb) (ring_datasize ri) (write_index rb)
                (concat kv_list))))
    by ring_side.
  cbn [ring_buffer ring_datasize buffer with_ring set_buffer].
  rewrite circ_write_app by lia.
  rewrite Zplus_mod_idemp_l.
  unfold hv_set_next_write_location, hv_need_to_signal. simpl.
  destruct (interrupt_mask rb =? 0); simpl;
    [destruct (write_index rb =? read_index rb) |]; reflexivity.
Qed.

(** ** Little-endian words *)

Lemma Z_of_byte_of_Z z : Z_of_byte (byte_of_Z z) = z mod 256.
Proof.
  unfold Z_of_byte, byte_of_Z.
  pose proof (Z.mod_pos_bound z 256 eq_refl) as Hb.
  destruct (Byte.of_N (Z.to_N (z mod 256))) as [b |] eqn:E.
  - apply Byte.to_of_N in E. rewrite E. lia.
  - apply Byte.of_N_None_iff in E. lia.
Qed.

Lemma le_value_le_bytes n : forall v,
  le_value (le_bytes n v) = v mod 2 ^ (8 * Z.of_nat n).
Proof.
  induction n as [| n IH]; intros v.
  - simpl. now rewrite Z.mod_1_r.
  - cbn [le_bytes le_value]. rewrite Z_of_byte_of_Z, IH.
    rewrite Z.shiftr_div_pow2 by lia.
    replace (8 * Z.of_nat (S n)) with (8 + 8 * Z.of_nat n) by lia.
    rewrite Z.pow_add_r by lia. change (2 ^ 8) with 256.
    rewrite Z.rem_mul_r by lia. reflexivity.
Qed.

Lemma back_link_word w :
  0 <= w < 2 ^ 31 ->
  let link := le_bytes 8 (u64 (Z.shiftl w 32)) in
  link = le_bytes 8 (Z.shiftl w 32) /\
  le_value link = Z.shiftl w 32 /\
  le_value (skipn 4 link) = w /\
  le_value (firstn 4 link) = 0.
Proof.
  intros Hw link.
  assert (Hv : Z.shiftl w 32 = w * 2 ^ 32) by (apply Z.shiftl_mul_pow2; lia).
  assert (Hu : u64 (Z.shiftl w 32) = Z.shiftl w 32)
    by (apply u64_small; lia).
  unfold link. rewrite Hu. split; [reflexivity |]. split; [| split].
  - rewrite le_value_le_bytes. apply Z.mod_small. lia.
  - change (skipn 4 (le_bytes 8 (Z.shiftl w 32)))
      with (le_bytes 4
              (Z.shiftr (Z.shiftr (Z.shiftr (Z.shiftr (Z.shiftl w 32) 8) 8) 8) 8)).
    rewrite !Z.shiftr_shiftr by lia. simpl (8 + _).
    rewrite Z.shiftr_shiftl_l by lia. simpl (32 - 32). rewrite Z.shiftl_0_r.
    rewrite le_value_le_bytes. apply Z.mod_small. simpl. lia.
  - change (firstn 4 (le_bytes 8 (Z.shiftl w 32)))
      with (le_bytes 4 (Z.shiftl w 32)).
    rewrite le_value_le_bytes, Hv. apply Z.mod_mul. simpl. lia.
Qed.

(** C7: after a successful write the segments lie in the data region from
    the old write index, and the 8 bytes after them are the index snapshot
    ([hv_get_ring_bufferindices]) taken before this write: the little-endian
    word [write_index << 32] of the write index as it was before the write,
    whose upper half is that index and whose lower half is zero; the write
    index has moved past both. *)
Theorem write_back_link ri rb kv_list sg lock sg' ri' :
  ring_wf ri rb ->
  zlen (concat kv_list) + 8 < 2 ^ 32 ->
  hv_ringbuffer_write ri kv_list sg lock = Some (0, sg', ri') ->
  exists rb' link,
    ring_buffer ri' = Some rb' /\
    hv_get_ring_bufferindices ri = Some (le_value link) /\
    ring_slice (buffer rb') (ring_datasize ri') (write_index rb)
      (length (concat kv_list)) = concat kv_list /\
    ring_slice (buffer rb') (ring_datasize ri')
      ((write_index rb + zlen (concat kv_list)) mod ring_datasize ri') 8
    = link /\
    link = le_bytes 8 (Z.shiftl (write_index rb) 32) /\
    le_value link = Z.shiftl (write_index rb) 32 /\
    le_value (skipn 4 link) = write_index rb /\
    le_value (firstn 4 link) = 0 /\
    write_index rb' =
      (write_index rb + zlen (concat kv_list) + 8) mod ring_datasize ri'.
Proof.
  intros Hwf Hfit H. pose proof Hwf as (Hrb & Hs & Hr & Hw & Hlen).
  pose proof (zlen_nonneg (concat kv_list)) as Hl.
  assert (Hnz : ring_datasize ri <> 0) by lia.
  destruct (write_cases ri rb kv_list sg lock Hrb Hnz)
    as [(_ & E) | (Hroom & _)]; [rewrite E in H; discriminate |].
  rewrite sum_iov_len_eq, u32_small in Hroom by lia. simpl in Hroom.
  rewrite (write_spec ri rb kv_list sg lock Hwf Hroom) in H.
  apply some_triple_inj in H as (_ & _ & <-).
  pose proof (Z.mod_pos_bound (write_index rb - read_index rb)
                (ring_datasize ri) (proj1 Hs)) as Hrd.
  pose proof (back_link_word (write_index rb)) as Hbl. cbv zeta in Hbl.
  remember (le_bytes 8 (u64 (Z.shiftl (write_index rb) 32))) as link
    eqn:Elink.
  assert (Hlk : length link = 8%nat) by (subst link; apply le_bytes_length).
  assert (Hall :
    ring_slice
      (circ_write (buffer rb) (ring_datasize ri) (write_index rb)
         (concat kv_list ++ link))
      (ring_datasize ri) (write_index rb) (length (concat kv_list) + 8)
    = concat kv_list ++ link).
  { rewrite <- Hlk, <- length_app.
    apply ring_slice_circ_write_same; try assumption.
    rewrite zlen_app. unfold zlen at 2. rewrite Hlk. lia. }
  assert (Hseg :
    ring_slice
      (circ_write (buffer rb) (ring_datasize ri) (write_index rb)
         (concat kv_list ++ link))
      (ring_datasize ri) (write_index rb) (length (concat kv_list))
    = concat kv_list).
  { rewrite (ring_slice_prefix _ _ _ (length (concat kv_list) + 8)) by lia.
    rewrite Hall, firstn_app, Nat.sub_diag, firstn_all.
    simpl. apply app_nil_r. }
  assert (Hlink :
    ring_slice
      (circ_write (buffer rb) (ring_datasize ri) (write_index rb)
         (concat kv_list ++ link))
      (ring_datasize ri)
      ((write_index rb + zlen (concat kv_list)) mod ring_datasize ri) 8
    = link).
  { unfold zlen at 1.
    rewrite (ring_slice_sub _ _ _ (length (concat kv_list) + 8)) by lia.
    rewrite Hall, skipn_app, Nat.sub_diag, skipn_all.
    rewrite app_nil_l, skipn_O, <- Hlk. apply firstn_all. }
  destruct Hbl as (H1 & H2 & H3 & H4); [lia |].
  eexists. exists link. split; [reflexivity |].
  split.
  { unfold hv_get_ring_bufferindices. rewrite Hrb, H2.
    rewrite u64_small; [reflexivity |].
    rewrite Z.shiftl_mul_pow2 by lia. lia. }
  split; [exact Hseg |]. split; [exact Hlink |].
  repeat split; assumption.
Qed.

(** ** The ring as a queue of packets *)

Lemma dist_mod r n d : 0 <= n < d -> ((r + n) mod d - r) mod d = n.
Proof.
  intros H. rewrite Zminus_mod_idemp_l.
  replace (r + n - r) with n by lia. now apply Z.mod_small.
Qed.

Lemma firstn_skipn_app (a : nat) (p x : list byte) :
  (a <= length p)%nat ->
  firstn (length p - a) (skipn a (p ++ x)) = skipn a p.
Proof.
  intros Ha. rewrite skipn_app.
  replace (a - length p)%nat with 0%nat by lia. rewrite skipn_O.
  rewrite firstn_app, length_skipn, Nat.sub_diag, firstn_O, app_nil_r.
  rewrite <- (length_skipn a p). apply firstn_all.
Qed.

Section Fifo.
Context {L : Layout}.

Lemma framed_snoc q s p link :
  framed q s -> length link = 8%nat -> framed (q ++ [p]) (s ++ p ++ link).
Proof.
  intros H Hl. induction H as [| p0 link0 q s Hl0 H IH]; simpl.
  - rewrite <- (app_nil_r link). constructor; [exact Hl | constructor].
  - rewrite <- !app_assoc. constructor; assumption.
Qed.

Lemma pkt_ok_fits p : pkt_ok p -> 0 < zlen p < 2 ^ 19.
Proof. intros (H1 & H2 & H3 & H4). lia. Qed.

Lemma repr_empty ri rb :
  ring_wf ri rb -> read_index rb = write_index rb -> repr ri [].
Proof.
  intros Hwf He. pose proof Hwf as (Hrb & Hs & Hr & Hw & Hlen).
  exists rb, []. split; [exact Hwf |]. split; [constructor |].
  split; [constructor |]. unfold zlen. simpl.
  split; [lia |]. split; [| reflexivity].
  rewrite Z.add_0_r, Z.mod_small by lia. now symmetry.
Qed.

Lemma repr_mask ri rb q v :
  ring_buffer ri = Some rb -> repr ri q ->
  repr (with_ring ri (set_interrupt_mask rb v)) q.
Proof.
  intros Hrb (rb0 & stream & Hwf & Hrest).
  pose proof Hwf as (Hrb0 & Hs & Hr & Hw & Hlen).
  assert (rb0 = rb) by congruence. subst rb0.
  exists (set_interrupt_mask rb v), stream. split; [| exact Hrest].
  unfold ring_wf. repeat split; assumption || reflexivity || apply Hs
    || apply Hr || apply Hw.
Qed.

(** A successful write appends its packet. *)
Lemma repr_write ri q kv_list sg lock sg' ri' :
  repr ri q -> pkt_ok (concat kv_list) ->
  hv_ringbuffer_write ri kv_list sg lock = Some (0, sg', ri') ->
  repr ri' (q ++ [concat kv_list]).
Proof.
  intros (rb & stream & Hwf & Hfr & Hok & Hlt & Hwi & Hsl) Hp H.
  pose proof Hwf as (Hrb & Hs & Hr & Hw & Hlen).
  pose proof (pkt_ok_fits _ Hp) as Hfit.
  pose proof (zlen_nonneg stream) as Hst.
  assert (Hnz : ring_datasize ri <> 0) by lia.
  assert (Hav : (write_index rb - read_index rb) mod ring_datasize ri
                = zlen stream).
  { rewrite Hwi. apply dist_mod. lia. }
  destruct (write_cases ri rb kv_list sg lock Hrb Hnz)
    as [(_ & E) | (Hroom & _)]; [rewrite E in H; discriminate |].
  rewrite sum_iov_len_eq, u32_small in Hroom by lia. simpl in Hroom.
  rewrite (write_spec ri rb kv_list sg lock Hwf Hroom) in H.
  apply some_triple_inj in H as (_ & _ & <-).
  remember (le_bytes 8 (u64 (Z.shiftl (write_index rb) 32))) as link
    eqn:Elink.
  assert (Hlk : length link = 8%nat) by (subst link; apply le_bytes_length).
  assert (Hzl : zlen (concat kv_list ++ link) = zlen (concat kv_list) + 8).
  { rewrite zlen_app. unfold zlen at 2. rewrite Hlk. reflexivity. }
  rewrite Hav in Hroom.
  eexists. exists (stream ++ concat kv_list ++ link).
  split; [| split; [| split; [| split; [| split]]]].
  - unfold ring_wf. split; [reflexivity |].
    cbn [ring_buffer ring_datasize with_ring set_write_index set_buffer
         read_index write_index buffer].
    split; [exact Hs |]. split; [exact Hr |].
    split; [apply Z.mod_pos_bound; lia |].
    now rewrite zlen_circ_write.
  - now apply framed_snoc.
  - apply Forall_app. split; [exact Hok | now constructor].
  - cbn [ring_datasize with_ring]. rewrite zlen_app, Hzl. lia.
  - cbn [ring_datasize with_ring set_write_index set_buffer
         read_index write_index].
    rewrite Hwi, <- Z.add_assoc, Zplus_mod_idemp_l, zlen_app, Hzl.
    f_equal. lia.
  - cbn [ring_datasize with_ring set_write_index set_buffer
         read_index buffer].
    rewrite length_app, ring_slice_app. f_equal.
    + rewrite Hwi. unfold zlen at 1.
      rewrite ring_slice_circ_write_other; [exact Hsl | exact Hlen | lia |].
      fold (zlen stream). lia.
    + fold (zlen stream). rewrite <- Hwi.
      apply ring_slice_circ_write_same; [exact Hlen | exact Hw | lia].
Qed.

(** On a ring that holds a packet the read path decodes that packet's
    descriptor. *)
Lemma repr_peek ri p q :
  repr ri (p :: q) -> peek_desc ri = Some (pkt_desc p).
Proof.
  intros (rb & stream & Hwf & Hfr & Hok & Hlt & Hwi & Hsl).
  pose proof Hwf as (Hrb & Hs & Hr & Hw & Hlen).
  inversion Hfr as [| p0 link q0 rest Hlk Hrest]; subst.
  inversion Hok as [| p0 q0 Hp Hq]; subst.
  pose proof Hp as (Hsd & _).
  rewrite zlen_app in Hlt. pose proof (zlen_nonneg (link ++ rest)).
  unfold peek_desc, hv_get_next_read_location. rewrite Hrb.
  rewrite u32_small by lia.
  rewrite (copyfrom_spec ri rb _ sizeof_desc (read_index rb) Hrb Hs Hlen Hr)
    by (try lia; unfold zlen; rewrite repeat_length; lia).
  rewrite skipn_all2 by (rewrite repeat_length; lia).
  rewrite app_nil_r.
  rewrite (ring_slice_prefix _ _ _ (length (p ++ link ++ rest)))
    by (rewrite length_app; unfold zlen in Hsd; lia).
  rewrite Hsl, firstn_app.
  replace (Z.to_nat sizeof_desc - length p)%nat with 0%nat
    by (unfold zlen in Hsd; lia).
  rewrite firstn_O, app_nil_r. reflexivity.
Qed.

(** The read path on a ring that holds a packet: it hands over the oldest
    packet from the header skip on, with its transaction id, and moves the
    read index past the packet and its back-link. *)
Lemma repr_read ri p q o buflen raw :
  repr ri (p :: q) ->
  exists rb sgn buf,
    ring_buffer ri = Some rb /\
    hv_ringbuffer_read ri o buflen raw =
    Some (if buflen <=? 0 then (- EINVAL, o, ri)
          else if zlen p - pkt_skip raw p >? buflen
          then (- ENOBUFS,
                mk_outs (dest o) (zlen p - pkt_skip raw p)
                  (trans_id (pkt_desc p)) (signal o), ri)
          else (0,
                mk_outs buf (zlen p - pkt_skip raw p)
                  (trans_id (pkt_desc p)) sgn,
                with_ring ri
                  (set_read_index rb
                     ((read_index rb + zlen p + 8) mod ring_datasize ri)))) /\
    (zlen p - pkt_skip raw p <= zlen (dest o) ->
     buf = pkt_payload raw p
           ++ skipn (Z.to_nat (zlen p - pkt_skip raw p)) (dest o)) /\
    repr (with_ring ri
            (set_read_index rb
               ((read_index rb + zlen p + 8) mod ring_datasize ri))) q.
Proof.
  intros Hrepr. pose proof (repr_peek _ _ _ Hrepr) as Hpeek.
  destruct Hrepr as (rb & stream & Hwf & Hfr & Hok & Hlt & Hwi & Hsl).
  pose proof Hwf as (Hrb & Hs & Hr & Hw & Hlen).
  inversion Hfr as [| p0 link q0 rest Hlk Hrest]; subst.
  inversion Hok as [| p0 q0 Hp Hq]; subst.
  pose proof Hp as (Hsd & Hl8 & Hl16 & Hoff).
  assert (Hzl : zlen (p ++ link ++ rest) = zlen p + 8 + zlen rest).
  { rewrite !zlen_app. unfold zlen at 2. rewrite Hlk. lia. }
  pose proof (zlen_nonneg rest) as Hrest0.
  assert (Hnz : ring_datasize ri <> 0) by lia.
  assert (Hav : (write_index rb - read_index rb) mod ring_datasize ri
                = zlen (p ++ link ++ rest)).
  { rewrite Hwi. apply dist_mod. pose proof (zlen_nonneg (p ++ link ++ rest)).
    lia. }
  rewrite Hzl in Hlt, Hav.
  assert (Hsk : 0 <= pkt_skip raw p <= zlen p)
    by (unfold pkt_skip; destruct raw; lia).
  destruct (payload_len_exact raw (pkt_desc p)) as (Ehs & Epl);
    [destruct raw; lia | lia |].
  fold (pkt_skip raw p) in Ehs, Epl. rewrite Hl8 in Epl.
  destruct (read_cases ri rb o buflen raw Hrb Hnz)
    as (d & buf & nxt & sgn & Hd & (nx & Hbuf) & Hnxt & Hsg & E).
  rewrite Hpeek in Hd. injection Hd as <-.
  rewrite Ehs, Epl in *. rewrite Hav in E.
  replace (zlen p - pkt_skip raw p + pkt_skip raw p) with (zlen p) in E by lia.
  rewrite (u32_small (zlen p)) in E by lia.
  rewrite (u32_small (read_index rb + pkt_skip raw p)) in Hnxt, Hbuf by lia.
  assert (Hb1 := Z.mod_pos_bound (read_index rb + pkt_skip raw p)
                   (ring_datasize ri) (proj1 Hs)).
  rewrite (u32_small ((read_index rb + pkt_skip raw p) mod ring_datasize ri
                      + (zlen p - pkt_skip raw p))) in Hnxt by lia.
  rewrite Zplus_mod_idemp_l in Hnxt.
  replace (read_index rb + pkt_skip raw p + (zlen p - pkt_skip raw p))
    with (read_index rb + zlen p) in Hnxt by lia.
  assert (Hb2 := Z.mod_pos_bound (read_index rb + zlen p)
                   (ring_datasize ri) (proj1 Hs)).
  rewrite (u32_small ((read_index rb + zlen p) mod ring_datasize ri + 8))
    in Hnxt by lia.
  rewrite Zplus_mod_idemp_l in Hnxt. subst nxt.
  destruct (Z.ltb_spec (zlen p + 8 + zlen rest) sizeof_desc); [lia |].
  destruct (Z.ltb_spec (zlen p + 8 + zlen rest) (zlen p)); [lia |].
  exists rb, sgn, buf. split; [exact Hrb |]. split; [exact E |]. split.
  - intros Hcap.
    rewrite (copyfrom_spec ri rb (dest o) _ _ Hrb Hs Hlen) in Hbuf
      by (try apply Z.mod_pos_bound; lia).
    injection Hbuf as <- _. f_equal.
    rewrite <- (Z2Nat.id (pkt_skip raw p)) at 1 by lia.
    rewrite (ring_slice_sub _ _ _ (length (p ++ link ++ rest)))
      by (rewrite length_app; unfold zlen in *; lia).
    rewrite Hsl. unfold pkt_payload.
    replace (Z.to_nat (zlen p - pkt_skip raw p))
      with (length p - Z.to_nat (pkt_skip raw p))%nat
      by (unfold zlen in *; lia).
    apply firstn_skipn_app. unfold zlen in *. lia.
  - exists (set_read_index rb
              ((read_index rb + zlen p + 8) mod ring_datasize ri)), rest.
    split; [| split; [exact Hrest | split; [exact Hq |]]].
    + unfold ring_wf. split; [reflexivity |].
      cbn [ring_buffer ring_datasize with_ring set_read_index
           read_index write_index buffer].
      split; [exact Hs |]. split; [apply Z.mod_pos_bound; lia |].
      split; [exact Hw | exact Hlen].
    + cbn [ring_buffer ring_datasize with_ring set_read_index
           read_index write_index buffer].
      split; [lia |]. split.
      * rewrite Hwi, Zplus_mod_idemp_l, Hzl. f_equal. lia.
      * replace (read_index rb + zlen p + 8)
          with (read_index rb + Z.of_nat (length p + 8))
          by (unfold zlen; lia).
        rewrite (ring_slice_sub _ _ _ (length (p ++ link ++ rest)))
          by (rewrite !length_app; lia).
        rewrite Hsl, app_assoc, skipn_app.
        replace (length p + 8)%nat with (length (p ++ link))
          by (rewrite length_app; lia).
        rewrite skipn_all, Nat.sub_diag, skipn_O, app_nil_l.
        apply firstn_all.
Qed.

(** Every ring reached by successful writes and reads holds its unread
    packets. *)
Lemma holds_repr ri q : holds ri q -> repr ri q.
Proof.
  induction 1 as [ri rb Hwf He
                 | ri q kv_list sg lock sg' ri' _ IH Hp Hw
                 | ri p q o buflen raw o' ri' _ IH Hr
                 | ri q ri' _ IH Hb
                 | ri q n ri' _ IH He].
  - now apply repr_empty with rb.
  - eapply repr_write; eassumption.
  - destruct (repr_read ri p q o buflen raw IH)
      as (rb & sgn & buf & _ & E & _ & Hq).
    rewrite E in Hr.
    destruct (buflen <=? 0); [discriminate |].
    destruct (_ >? buflen); [discriminate |].
    apply some_triple_inj in Hr as (_ & _ & <-). exact Hq.
  - unfold hv_begin_read in Hb.
    destruct (ring_buffer ri) as [rb |] eqn:Hrb; [| discriminate].
    injection Hb as <-. now apply repr_mask.
  - unfold hv_end_read in He.
    destruct (ring_buffer ri) as [rb |] eqn:Hrb; [| discriminate].
    destruct (hv_get_ringbuffer_availbytes _) as [[rd wr] |];
      [| discriminate].
    injection He as _ <-. now apply repr_mask.
Qed.

(** A single packet written into an empty ring, wherever its indices
    stand, and read back. *)
Lemma write_then_read ri rb kv_list sg lock o buflen raw :
  ring_wf ri rb -> read_index rb = write_index rb ->
  pkt_ok (concat kv_list) ->
  zlen (concat kv_list) + 8 < ring_datasize ri ->
  0 < buflen ->
  zlen (concat kv_list) - pkt_skip raw (concat kv_list) <= buflen ->
  buflen <= zlen (dest o) ->
  exists sg' ri1 sgn ri2,
    hv_ringbuffer_write ri kv_list sg lock = Some (0, sg', ri1) /\
    hv_ringbuffer_read ri1 o buflen raw =
    Some (0,
          mk_outs
            (pkt_payload raw (concat kv_list)
             ++ skipn (Z.to_nat (zlen (concat kv_list)
                                 - pkt_skip raw (concat kv_list))) (dest o))
            (zlen (concat kv_list) - pkt_skip raw (concat kv_list))
            (trans_id (pkt_desc (concat kv_list))) sgn,
          ri2) /\
    holds ri2 [].
Proof.
  intros Hwf He Hp Hroom Hb Hcap Hdst.
  pose proof Hwf as (Hrb & Hs & Hr & Hw & Hlen).
  assert (Hw0 : hv_ringbuffer_write ri kv_list sg lock =
                Some (0, (interrupt_mask rb =? 0)
                         && (write_index rb =? read_index rb),
                      with_ring ri
                        (set_write_index
                           (set_buffer rb
                              (circ_write (buffer rb) (ring_datasize ri)
                                 (write_index rb)
                                 (concat kv_list
                                  ++ le_bytes 8
                                       (u64 (Z.shiftl (write_index rb) 32)))))
                           ((write_index rb + zlen (concat kv_list) + 8)
                            mod ring_datasize ri)))).
  { apply write_spec; [exact Hwf |].
    rewrite He, Z.sub_diag, Z.mod_0_l by lia. lia. }
  assert (Hh : holds
                 (with_ring ri
                    (set_write_index
                       (set_buffer rb
                          (circ_write (buffer rb) (ring_datasize ri)
                             (write_index rb)
                             (concat kv_list
                              ++ le_bytes 8
                                   (u64 (Z.shiftl (write_index rb) 32)))))
                       ((write_index rb + zlen (concat kv_list) + 8)
                        mod ring_datasize ri)))
                 ([] ++ [concat kv_list])).
  { eapply holds_write; [eapply holds_empty; eassumption | exact Hp |].
    exact Hw0. }
  simpl app in Hh.
  destruct (repr_read _ _ _ o buflen raw (holds_repr _ _ Hh))
    as (rb1 & sgn & buf & _ & E & Hbuf & _).
  destruct (Z.leb_spec buflen 0); [lia |].
  rewrite Z.gtb_ltb in E.
  destruct (Z.ltb_spec buflen
              (zlen (concat kv_list) - pkt_skip raw (concat kv_list)));
    [lia |].
  rewrite Hbuf in E by lia.
  do 4 eexists. split; [exact Hw0 |]. split; [exact E |].
  eapply holds_read; [exact Hh | exact E].
Qed.

(** C1, amended: in every ring reached from an empty one by successful
    writes of packets that start with their descriptor and by successful
    reads, a read with enough capacity returns 0 and hands over, byte for
    byte, the oldest unread packet from the header skip on (the whole packet
    in raw mode, the bytes after the first [offset8*8] otherwise), its length
    and the transaction id of its descriptor, and leaves the ring holding the
    other packets; in particular one packet of [L] bytes with transaction id
    [T] written into an empty ring, whatever the value of its two indices,
    reads back with length [L] minus the header skip and id [T]. *)
Theorem fifo_round_trip :
  (forall ri p q o buflen raw,
     holds ri (p :: q) ->
     0 < buflen ->
     zlen p - pkt_skip raw p <= buflen ->
     buflen <= zlen (dest o) ->
     exists sgn ri',
       hv_ringbuffer_read ri o buflen raw =
       Some (0,
             mk_outs
               (pkt_payload raw p
                ++ skipn (Z.to_nat (zlen p - pkt_skip raw p)) (dest o))
               (zlen p - pkt_skip raw p) (trans_id (pkt_desc p)) sgn,
             ri') /\
       holds ri' q) /\
  (forall ri rb kv_list sg lock o buflen raw,
     ring_wf ri rb -> read_index rb = write_index rb ->
     pkt_ok (concat kv_list) ->
     zlen (concat kv_list) + 8 < ring_datasize ri ->
     0 < buflen ->
     zlen (concat kv_list) - pkt_skip raw (concat kv_list) <= buflen ->
     buflen <= zlen (dest o) ->
     exists sg' ri1 sgn ri2,
       hv_ringbuffer_write ri kv_list sg lock = Some (0, sg', ri1) /\
       hv_ringbuffer_read ri1 o buflen raw =
       Some (0,
             mk_outs
               (pkt_payload raw (concat kv_list)
                ++ skipn (Z.to_nat (zlen (concat kv_list)
                                    - pkt_skip raw (concat kv_list)))
                     (dest o))
               (zlen (concat kv_list) - pkt_skip raw (concat kv_list))
               (trans_id (pkt_desc (concat kv_list))) sgn,
             ri2) /\
       holds ri2 []).
Proof.
  split.
  - intros ri p q o buflen raw Hh Hb Hcap Hdst.
    destruct (repr_read ri p q o buflen raw (holds_repr _ _ Hh))
      as (rb & sgn & buf & _ & E & Hbuf & _).
    destruct (Z.leb_spec buflen 0); [lia |].
    rewrite Z.gtb_ltb in E.
    destruct (Z.ltb_spec buflen (zlen p - pkt_skip raw p)); [lia |].
    rewrite Hbuf in E by lia.
    do 2 eexists. split; [exact E |].
    eapply holds_read; [exact Hh | exact E].
  - intros. eapply write_then_read; eassumption.
Qed.

End Fifo.

(** ** The claims at concrete rings *)

(** Evaluates a closed comparison or equation. *)
Ltac conc :=
  vm_compute;
  first [ reflexivity | let Hc := fresh "Hc" in intro Hc; discriminate Hc ].

Lemma pkt24_ok : pkt_ok (L := linux_layout) (concat pkt24).
Proof. unfold pkt_ok. repeat split; conc. Defined.

Lemma ring64_wf w r mask pending :
  0 <= r < 64 -> 0 <= w < 64 ->
  ring_wf (ring64 w r mask pending)
    (mk_ring_buffer w r mask pending 1 (repeat x00 64)).
Proof.
  intros Hr Hw. unfold ring_wf. split; [reflexivity |].
  split; [split; conc |]. split; [exact Hr |]. split; [exact Hw |].
  reflexivity.
Defined.

Lemma ring64_pkt_holds :
  holds (L := linux_layout) (ring64_pkt 0 0) [concat pkt24].
Proof.
  apply (holds_write (L := linux_layout) (ring64 56 56 0 0) [] pkt24
           false true true (ring64_pkt 0 0)).
  - eapply holds_empty; [apply (ring64_wf 56 56 0 0); lia | reflexivity].
  - exact pkt24_ok.
  - vm_compute. reflexivity.
Defined.

(** C1 as stated fails: the packet [pkt24] of 24 bytes (descriptor with
    offset8 = 2, len8 = 3, transaction id 77, then 8 bytes), written into an
    empty ring, reads back outside raw mode with length 8, not 24; in raw
    mode the length is 24. *)
Lemma fifo_round_trip_counterexample :
  hv_ringbuffer_write (ring64 56 56 0 0) pkt24 false true =
    Some (0, true, ring64_pkt 0 0) /\
  zlen (concat pkt24) = 24 /\
  read_summary
    (hv_ringbuffer_read (L := linux_layout) (ring64_pkt 0 0) (outs0 32) 32
       false) = Some (0, 8, 77) /\
  read_summary
    (hv_ringbuffer_read (L := linux_layout) (ring64_pkt 0 0) (outs0 32) 32
       true) = Some (0, 24, 77).
Proof. repeat split; vm_compute; reflexivity. Qed.

Lemma fifo_round_trip_witness :
  exists sgn ri',
    hv_ringbuffer_read (L := linux_layout) (ring64_pkt 0 0) (outs0 32) 32
      false =
    Some (0,
          mk_outs ([x01; x02; x03; x04; x05; x06; x07; x08] ++ repeat xff 24)
            8 77 sgn, ri') /\
    holds (L := linux_layout) ri' [].
Proof.
  destruct (proj1 (fifo_round_trip (L := linux_layout)) (ring64_pkt 0 0)
              (concat pkt24) [] (outs0 32) 32 false)
    as (sgn & ri' & E & Hh).
  - exact ring64_pkt_holds.
  - lia.
  - conc.
  - conc.
  - exists sgn, ri'. split; [exact E | exact Hh].
Defined.

(** Two packets written around the end of the data region come back in the
    order written. *)
Example fifo_two_packets :
  let ri1 := after_write (ring64 56 56 0 0) pkt24 in
  let ri2 := after_write ri1 pkt16 in
  hv_get_ringbuffer_availbytes ri2 = Some (56, 8) /\
  read_summary (hv_ringbuffer_read (L := linux_layout) ri2 (outs0 32) 32 true)
    = Some (0, 24, 77) /\
  read_summary
    (hv_ringbuffer_read (L := linux_layout) (after_read ri2 32 true)
       (outs0 32) 32 true) = Some (0, 16, 78) /\
  read_summary
    (hv_ringbuffer_read (L := linux_layout)
       (after_read (after_read ri2 32 true) 32 true) (outs0 32) 32 true)
    = Some (0, 0, 0).
Proof. repeat split; vm_compute; reflexivity. Qed.

Lemma write_full_margin_witness :
  exists r sg' ri',
    hv_ringbuffer_write (ring64 56 56 0 0) pkt24 false true
    = Some (r, sg', ri') /\
    (r = - EAGAIN <-> 64 <= zlen (concat pkt24) + 8) /\
    (r = 0 <-> zlen (concat pkt24) + 8 < 64) /\
    (r = - EAGAIN -> sg' = false /\ ri' = ring64 56 56 0 0).
Proof.
  apply (write_full_margin (ring64 56 56 0 0)
           (mk_ring_buffer 56 56 0 0 1 (repeat x00 64)) pkt24 false true
           0 64).
  - apply ring64_wf; lia.
  - conc.
  - reflexivity.
Defined.

(** With 32 bytes free the packet of 24 bytes and its back-link do not go
    in, and nothing changes; with 33 bytes free they do. *)
Example write_margin_edge :
  hv_get_ringbuffer_availbytes (ring64 32 0 0 0) = Some (32, 32) /\
  hv_ringbuffer_write (ring64 32 0 0 0) pkt24 false true =
    Some (- EAGAIN, false, ring64 32 0 0 0) /\
  hv_get_ringbuffer_availbytes (ring64 31 0 0 0) = Some (31, 33) /\
  option_map (fun x => fst (fst x))
    (hv_ringbuffer_write (ring64 31 0 0 0) pkt24 false true) = Some 0.
Proof. repeat split; vm_compute; reflexivity. Qed.

Lemma write_signal_witness :
  true = (0 =? 0) && (56 =? 56) /\
  exists rb',
    ring_buffer (ring64_pkt 0 0) = Some rb' /\
    read_index rb' = 56 /\ interrupt_mask rb' = 0.
Proof.
  apply (write_signal_empty_to_nonempty (ring64 56 56 0 0)
           (mk_ring_buffer 56 56 0 0 1 (repeat x00 64)) pkt24 false true
           true (ring64_pkt 0 0)).
  - reflexivity.
  - vm_compute. reflexivity.
Defined.

(** The flag of a write: set on an empty unmasked ring, clear on a masked
    ring and on a ring that already held unread bytes. *)
Example write_signal_cases :
  option_map (fun x => snd (fst x))
    (hv_ringbuffer_write (ring64 56 56 0 0) pkt24 false true) = Some true /\
  option_map (fun x => snd (fst x))
    (hv_ringbuffer_write (ring64 56 56 1 0) pkt24 true true) = Some false /\
  option_map (fun x => snd (fst x))
    (hv_ringbuffer_write (ring64 56 40 0 0) pkt24 true true) = Some false.
Proof. repeat split; vm_compute; reflexivity. Qed.

(** C4 as stated fails on the read that finds nothing.  On an empty ring
    on which nobody waits (pending_send_sz = 0) a read entered with the
    flag set returns 0 and hands the flag back set.  And with a producer
    waiting for 48 bytes: the read that frees them reports true; the next
    read, on the ring now empty with all 64 bytes writable before and after
    it, returns 0 with the flag still true. *)
Lemma read_signal_flow_control_counterexample :
  hv_get_ringbuffer_availbytes (ring64 56 56 0 0) = Some (0, 64) /\
  hv_ringbuffer_read (L := linux_layout) (ring64 56 56 0 0)
    (mk_outs (repeat xff 32) 5 9 true) 32 false =
    Some (0, mk_outs (repeat xff 32) 0 0 true, ring64 56 56 0 0) /\
  option_map (fun x => (fst (fst x), signal (snd (fst x))))
    (hv_ringbuffer_read (L := linux_layout) (ring64_pkt 0 48) (outs0 32) 32
       false) = Some (0, true) /\
  hv_get_ringbuffer_availbytes (after_read (ring64_pkt 0 48) 32 false) =
    Some (0, 64) /\
  option_map pending_send_sz
    (ring_buffer (after_read (ring64_pkt 0 48) 32 false)) = Some 48 /\
  hv_ringbuffer_read (L := linux_layout)
    (after_read (ring64_pkt 0 48) 32 false)
    (mk_outs (repeat xff 32) 5 9 true) 32 false =
    Some (0, mk_outs (repeat xff 32) 0 0 true,
          after_read (ring64_pkt 0 48) 32 false).
Proof. repeat split; vm_compute; reflexivity. Qed.

Lemma read_signal_witness :
  exists o' ri',
    hv_ringbuffer_read (L := linux_layout) (ring64_pkt 0 48) (outs0 32) 32
      false = Some (0, o', ri') /\
    signal o' = true /\
    exists rb',
      ring_buffer ri' = Some rb' /\
      pending_send_sz rb' = 48 /\
      (sizeof_desc (Layout := linux_layout) <= 32 ->
       signal o' =
         negb (pending_send_sz rb' =? 0)
         && (32 <? pending_send_sz rb')
         && (pending_send_sz rb' <=?
             ring_datasize ri'
             - (write_index rb' - read_index rb') mod ring_datasize ri') /\
       (pending_send_sz rb' = 0 -> signal o' = false) /\
       (pending_send_sz rb' <= 32 -> signal o' = false)) /\
      (32 < sizeof_desc (Layout := linux_layout) ->
       signal o' = signal (outs0 32) /\
       ri' = ring64_pkt 0 48 /\
       negb (pending_send_sz rb' =? 0)
       && (32 <? pending_send_sz rb')
       && (pending_send_sz rb' <=?
           ring_datasize ri'
           - (write_index rb' - read_index rb') mod ring_datasize ri')
       = false).
Proof.
  do 2 eexists. split; [vm_compute; reflexivity |].
  split; [reflexivity |].
  refine (read_signal_flow_control (L := linux_layout) (ring64_pkt 0 48)
            (ring_of (ring64_pkt 0 48)) (outs0 32) 32 false 32 32 _ _
            _ _ _).
  - unfold ring_wf. repeat split; conc.
  - vm_compute. reflexivity.
  - vm_compute. reflexivity.
Defined.

(** The flag of a read fires on the read that takes available-to-write
    from below pending_send_sz to it or above, and on no other read that
    finds a packet: not while nobody waits, not when the room was there
    before the read; on an empty ring a flag passed in cleared stays
    cleared. *)
Example read_signal_cases :
  option_map (fun x => signal (snd (fst x)))
    (hv_ringbuffer_read (L := linux_layout) (ring64_pkt 0 48) (outs0 32) 32
       false) = Some true /\
  option_map (fun x => signal (snd (fst x)))
    (hv_ringbuffer_read (L := linux_layout) (ring64_pkt 0 0) (outs0 32) 32
       false) = Some false /\
  option_map (fun x => signal (snd (fst x)))
    (hv_ringbuffer_read (L := linux_layout) (ring64_pkt 0 32) (outs0 32) 32
       false) = Some false /\
  option_map (fun x => signal (snd (fst x)))
    (hv_ringbuffer_read (L := linux_layout)
       (after_read (ring64_pkt 0 48) 32 false) (outs0 32) 32 false)
    = Some false.
Proof. repeat split; vm_compute; reflexivity. Qed.

(** C5 as stated fails: the ring holds a complete packet (32 bytes to read,
    a descriptor of 16, a packet of 24) whose payload length 8 exceeds a
    destination capacity of 0, and the read fails with the invalid-argument
    error, not with the buffer-too-small error; the endpoint is as before. *)
Lemma read_buffer_too_small_counterexample :
  hv_get_ringbuffer_availbytes (ring64_pkt 0 0) = Some (32, 32) /\
  peek_desc (L := linux_layout) (ring64_pkt 0 0) = Some (mk_desc 2 3 77) /\
  payload_len false (mk_desc 2 3 77) = 8 /\
  header_skip false (mk_desc 2 3 77) = 16 /\
  hv_ringbuffer_read (L := linux_layout) (ring64_pkt 0 0) (outs0 0) 0 false =
    Some (- EINVAL, outs0 0, ring64_pkt 0 0).
Proof. repeat split; vm_compute; reflexivity. Qed.

Lemma read_buffer_too_small_witness :
  (0 < 4 ->
   hv_ringbuffer_read (L := linux_layout) (ring64_pkt 0 0) (outs0 4) 4 false =
   Some (- ENOBUFS, mk_outs (repeat xff 4) 8 77 false, ring64_pkt 0 0)) /\
  (4 <= 0 ->
   hv_ringbuffer_read (L := linux_layout) (ring64_pkt 0 0) (outs0 4) 4 false =
   Some (- EINVAL, outs0 4, ring64_pkt 0 0)).
Proof.
  apply (read_buffer_too_small (L := linux_layout) (ring64_pkt 0 0)
           (outs0 4) 4 false 32 32 (mk_desc 2 3 77)); conc.
Defined.

(** A read that failed for want of room is repeated with a larger buffer
    and hands the packet over. *)
Example read_retry_larger_buffer :
  read_summary
    (hv_ringbuffer_read (L := linux_layout) (ring64_pkt 0 0) (outs0 4) 4
       false) = Some (- ENOBUFS, 8, 77) /\
  after_read (ring64_pkt 0 0) 4 false = ring64_pkt 0 0 /\
  option_map (fun x => (fst (fst x), firstn 8 (dest (snd (fst x)))))
    (hv_ringbuffer_read (L := linux_layout)
       (after_read (ring64_pkt 0 0) 4 false) (outs0 8) 8 false)
  = Some (0, [x01; x02; x03; x04; x05; x06; x07; x08]).
Proof. repeat split; vm_compute; reflexivity. Qed.

(** C6 as stated fails: with the control-block structure one page long,
    initialisation succeeds for a length of 100 bytes and for one of 8192
    bytes, so no length is refused (for 100 the data size wraps around to
    [2^32 - 3996]). *)
Lemma init_contract_counterexample :
  hv_ringbuffer_init (L := linux_layout) (mk_ring_info None 0 0)
    (Some (mk_ring_buffer 5 7 0 0 0 [])) 100 =
  Some (0, mk_ring_info (Some (mk_ring_buffer 0 0 0 0 1 [])) 100 4294963300)
  /\
  hv_ringbuffer_init (L := linux_layout) (mk_ring_info None 0 0)
    (Some (mk_ring_buffer 5 7 0 0 0 (repeat x00 4096))) 8192 =
  Some (0, mk_ring_info (Some (mk_ring_buffer 0 0 0 0 1 (repeat x00 4096)))
             8192 4096).
Proof. split; vm_compute; reflexivity. Qed.

(** Where the structure is not one page long, initialisation fails whatever
    the length. *)
Example init_layout_mismatch :
  hv_ringbuffer_init (L := mk_layout 4096 4032 16 linux_desc_of_bytes)
    (mk_ring_info None 0 0) (Some (mk_ring_buffer 5 7 0 0 0 [])) 8192 =
  Some (- EINVAL, mk_ring_info None 0 0).
Proof. vm_compute. reflexivity. Qed.

Lemma write_back_link_witness :
  exists rb' link,
    ring_buffer (ring64_pkt 0 0) = Some rb' /\
    hv_get_ring_bufferindices (ring64 56 56 0 0) = Some (le_value link) /\
    ring_slice (buffer rb') 64 56 (length (concat pkt24)) = concat pkt24 /\
    ring_slice (buffer rb') 64 ((56 + zlen (concat pkt24)) mod 64) 8 = link /\
    link = le_bytes 8 (Z.shiftl 56 32) /\
    le_value link = Z.shiftl 56 32 /\
    le_value (skipn 4 link) = 56 /\
    le_value (firstn 4 link) = 0 /\
    write_index rb' = (56 + zlen (concat pkt24) + 8) mod 64.
Proof.
  apply (write_back_link (ring64 56 56 0 0)
           (mk_ring_buffer 56 56 0 0 1 (repeat x00 64)) pkt24 false true
           true (ring64_pkt 0 0)).
  - apply ring64_wf; lia.
  - conc.
  - vm_compute. reflexivity.
Defined.

Lemma read_nothing_yet_witness :
  hv_ringbuffer_read (L := linux_layout) (ring64 8 8 0 0) (outs0 16) 16 false
  = Some (0, mk_outs (repeat xff 16) 0 0 false, ring64 8 8 0 0).
Proof.
  apply (read_nothing_yet (L := linux_layout) (ring64 8 8 0 0) (outs0 16) 16
           false 0 64).
  - lia.
  - reflexivity.
  - conc.
Defined.

(** C9 as stated fails: a read with capacity 0 returns before the two
    out-parameters are zeroed; they keep the values 5 and 9 the caller had
    in them. *)
Lemma read_out_params_counterexample :
  buffer_actual_len (outs0 0) = 5 /\ requestid (outs0 0) = 9 /\
  read_summary
    (hv_ringbuffer_read (L := linux_layout) (ring64_pkt 0 0) (outs0 0) 0
       false) = Some (- EINVAL, 5, 9).
Proof. repeat split; vm_compute; reflexivity. Qed.

Lemma read_out_params_witness :
  exists r o' ri',
    hv_ringbuffer_read (L := linux_layout) (ring64_pkt 0 0) (outs0 4) 4 false
    = Some (r, o', ri') /\
    (4 <= 0 -> r = - EINVAL /\ o' = outs0 4) /\
    (0 < 4 -> 32 < sizeof_desc (Layout := linux_layout) ->
     r = 0 /\ buffer_actual_len o' = 0 /\ requestid o' = 0) /\
    (0 < 4 -> sizeof_desc (Layout := linux_layout) <= 32 ->
     exists d,
       peek_desc (L := linux_layout) (ring64_pkt 0 0) = Some d /\
       buffer_actual_len o' = payload_len false d /\
       requestid o' = trans_id d /\
       (32 < u32 (payload_len false d + header_skip false d) ->
        r = - EAGAIN) /\
       (u32 (payload_len false d + header_skip false d) <= 32 ->
        4 < payload_len false d -> r = - ENOBUFS) /\
       (u32 (payload_len false d + header_skip false d) <= 32 ->
        payload_len false d <= 4 -> r = 0)).
Proof.
  apply (read_out_params (L := linux_layout) (ring64_pkt 0 0)
           (ring_of (ring64_pkt 0 0)) (outs0 4) 4 false 32 32); conc.
Defined.

(** The out-parameters after each way a read can end: nothing to read,
    packet not fully written, buffer too small, success. *)
Example read_out_params_cases :
  read_summary
    (hv_ringbuffer_read (L := linux_layout) (ring64 8 8 0 0) (outs0 16) 16
       false) = Some (0, 0, 0) /\
  read_summary
    (hv_ringbuffer_read (L := linux_layout)
       (with_ring (ring64_pkt 0 0)
          (set_write_index (ring_of (ring64_pkt 0 0)) 12))
       (outs0 16) 16 false) = Some (- EAGAIN, 8, 77) /\
  read_summary
    (hv_ringbuffer_read (L := linux_layout) (ring64_pkt 0 0) (outs0 4) 4
       false) = Some (- ENOBUFS, 8, 77) /\
  read_summary
    (hv_ringbuffer_read (L := linux_layout) (ring64_pkt 0 0) (outs0 8) 8
       false) = Some (0, 8, 77).
Proof. repeat split; vm_compute; reflexivity. Qed.

(** The snapshot of a mapped ring, and of an endpoint with no ring. *)
Example debuginfo_cases :
  hv_ringbuffer_get_debuginfo (ring64_pkt 1 0) (mk_debug_info 9 9 9 9 9) =
    Some (mk_debug_info 1 56 24 32 32) /\
  hv_ringbuffer_get_debuginfo (mk_ring_info None 4160 64)
    (mk_debug_info 9 9 9 9 9) = Some (mk_debug_info 9 9 9 9 9).
Proof. split; vm_compute; reflexivity. Qed.

(** * Further properties of the code *)

(** The bytes a ring of packets occupies: each packet and its back-link. *)
Fixpoint queue_bytes (q : list (list byte)) : Z :=
  match q with
  | [] => 0
  | p :: q' => zlen p + 8 + queue_bytes q'
  end.

Lemma zlen_skipn k l : zlen (skipn k l) = zlen l - Z.of_nat (Nat.min k (length l)).
Proof. unfold zlen. rewrite length_skipn. lia. Qed.

(** A slice around the end, as a list: the region from the offset on,
    followed by the region from its start. *)
Lemma ring_slice_as_list ring d off n :
  zlen ring = d -> 0 <= off < d -> (n <= length ring)%nat ->
  ring_slice ring d off n = firstn n (skipn (Z.to_nat off) ring ++ ring).
Proof.
  intros Hlen Hoff Hn. unfold zlen in Hlen.
  assert (Hsk : zlen (skipn (Z.to_nat off) ring) = d - off)
    by (rewrite zlen_skipn; unfold zlen; lia).
  apply znth_ext.
  - rewrite ring_slice_length, length_firstn, length_app. lia.
  - intros i Hi. unfold zlen in Hi. rewrite ring_slice_length in Hi.
    rewrite znth_ring_slice, znth_firstn by lia.
    rewrite znth_app, Hsk by lia.
    destruct (Z.ltb_spec i (d - off)).
    + rewrite znth_skipn by lia. zmod (off + i) d. f_equal. lia.
    + zmod (off + i) d. f_equal. lia.
Qed.

(** X1: on a checked ring, [hv_copyto_ringbuffer] lays the source down from
    the offset, going on at the start of the data region when it reaches the
    end: read around the end from the offset the region gives the source
    back, every byte outside those places is as before, no field of the
    control block changes, and the offset returned is the offset advanced
    modulo the data size. *)
Theorem copyto_lays_down ri rb off src :
  ring_wf ri rb ->
  0 <= off < ring_datasize ri ->
  zlen src <= ring_datasize ri ->
  exists b,
    hv_copyto_ringbuffer ri off src (zlen src) =
    Some (with_ring ri (set_buffer rb b),
          (off + zlen src) mod ring_datasize ri) /\
    zlen b = ring_datasize ri /\
    firstn (length src) (skipn (Z.to_nat off) b ++ b) = src /\
    (forall j, 0 <= j < ring_datasize ri ->
               zlen src <= (j - off) mod ring_datasize ri ->
               znth j b = znth j (buffer rb)).
Proof.
  intros (Hrb & Hs & Hr & Hw & Hlen) Hoff Hn.
  exists (circ_write (buffer rb) (ring_datasize ri) off src).
  split; [now apply copyto_spec |].
  split; [now rewrite zlen_circ_write |]. split.
  - rewrite <- ring_slice_as_list with (d := ring_datasize ri).
    + now apply ring_slice_circ_write_same.
    + now rewrite zlen_circ_write.
    + exact Hoff.
    + rewrite circ_write_length. unfold zlen in *. lia.
  - intros j Hj Hout. rewrite znth_circ_write by lia.
    destruct (Z.ltb_spec ((j - off) mod ring_datasize ri) (zlen src));
      [lia | reflexivity].
Qed.

(** X2: on a checked ring, [hv_copyfrom_ringbuffer] hands over the [n]
    bytes that start at the offset, going on at the start of the data region
    when it reaches the end; the rest of the destination is as before and
    the offset returned is the offset advanced modulo the data size. *)
Theorem copyfrom_reads_around ri rb dst n off :
  ring_wf ri rb ->
  0 <= off < ring_datasize ri ->
  0 <= n <= ring_datasize ri ->
  n <= zlen dst ->
  hv_copyfrom_ringbuffer ri dst n off =
  Some (firstn (Z.to_nat n) (skipn (Z.to_nat off) (buffer rb) ++ buffer rb)
          ++ skipn (Z.to_nat n) dst,
        (off + n) mod ring_datasize ri).
Proof.
  intros (Hrb & Hs & Hr & Hw & Hlen) Hoff Hn Hd.
  rewrite (copyfrom_spec ri rb dst n off Hrb Hs Hlen Hoff Hn Hd).
  rewrite (ring_slice_as_list _ _ _ _ Hlen Hoff)
    by (unfold zlen in Hlen; lia).
  reflexivity.
Qed.

(** X3: what [hv_copyto_ringbuffer] puts into a checked ring,
    [hv_copyfrom_ringbuffer] gets out of it from the same offset, also
    around the end of the data region, and both return the same advanced
    offset. *)
Theorem copy_round_trip ri rb off src dst :
  ring_wf ri rb ->
  0 <= off < ring_datasize ri ->
  zlen src <= ring_datasize ri ->
  zlen src <= zlen dst ->
  exists ri' nx,
    hv_copyto_ringbuffer ri off src (zlen src) = Some (ri', nx) /\
    hv_copyfrom_ringbuffer ri' dst (zlen src) off =
    Some (src ++ skipn (length src) dst, nx).
Proof.
  intros (Hrb & Hs & Hr & Hw & Hlen) Hoff Hn Hd.
  pose proof (zlen_nonneg src) as Hn0.
  do 2 eexists.
  split; [exact (copyto_spec ri rb off src Hrb Hs Hlen Hoff Hn) |].
  rewrite (copyfrom_spec _ (set_buffer rb
             (circ_write (buffer rb) (ring_datasize ri) off src)))
    by ring_side.
  cbn [ring_buffer ring_datasize buffer with_ring set_buffer].
  unfold zlen at 1. rewrite Nat2Z.id.
  rewrite ring_slice_circ_write_same by assumption.
  unfold zlen at 1. rewrite Nat2Z.id. reflexivity.
Qed.

(** X4: the loop of the write path over the segments does what one call of
    [hv_copyto_ringbuffer] does with the segments joined: the same data
    region and the same offset, as long as they fit the data region. *)
Theorem copy_segments_compose ri rb kv_list off :
  ring_wf ri rb ->
  0 <= off < ring_datasize ri ->
  zlen (concat kv_list) <= ring_datasize ri ->
  copy_kv_list ri kv_list off =
  hv_copyto_ringbuffer ri off (concat kv_list) (zlen (concat kv_list)).
Proof.
  intros (Hrb & Hs & Hr & Hw & Hlen) Hoff Hn.
  rewrite copy_kv_list_spec with (rb := rb) by assumption.
  symmetry. now apply copyto_spec.
Qed.

Lemma ring_wf_mask ri rb v :
  ring_wf ri rb ->
  ring_wf (with_ring ri (set_interrupt_mask rb v)) (set_interrupt_mask rb v).
Proof.
  intros (Hrb & Hs & Hr & Hw & Hlen). unfold ring_wf.
  split; [reflexivity |]. split; [exact Hs |]. split; [exact Hr |].
  split; [exact Hw | exact Hlen].
Qed.

(** Bytes to read after the write index has moved on by [n]. *)
Lemma avail_after_write w r n d :
  0 < d -> 0 <= n -> (w - r) mod d + n < d ->
  ((w + n) mod d - r) mod d = (w - r) mod d + n.
Proof.
  intros Hd Hn Hfit. rewrite Zminus_mod_idemp_l.
  replace (w + n - r) with (w - r + n) by lia.
  rewrite <- Zplus_mod_idemp_l. apply Z.mod_small.
  pose proof (Z.mod_pos_bound (w - r) d Hd). lia.
Qed.

(** X5: no wake-up is lost.  The consumer masks interrupts with
    [hv_begin_read]; a write that goes through meanwhile reports that no
    signal is needed; [hv_end_read] then clears the mask and returns the
    bytes available to read, the write's [L + 8] bytes included, so the
    consumer sees the data it was not signalled for. *)
Theorem no_lost_wakeup ri rb kv_list sg lock :
  ring_wf ri rb ->
  zlen (concat kv_list) + 8
  < ring_datasize ri
    - (write_index rb - read_index rb) mod ring_datasize ri ->
  exists ri1 ri2 ri3 rb3,
    hv_begin_read ri = Some ri1 /\
    hv_ringbuffer_write ri1 kv_list sg lock = Some (0, false, ri2) /\
    hv_end_read ri2 =
    Some ((write_index rb - read_index rb) mod ring_datasize ri
          + zlen (concat kv_list) + 8, ri3) /\
    ring_buffer ri3 = Some rb3 /\ interrupt_mask rb3 = 0.
Proof.
  intros Hwf Hroom. pose proof Hwf as (Hrb & Hs & Hr & Hw & Hlen).
  pose proof (zlen_nonneg (concat kv_list)) as Hl.
  pose proof (ring_wf_mask ri rb 1 Hwf) as Hwf1.
  pose proof (write_spec _ _ kv_list sg lock Hwf1 Hroom) as Hwr.
  cbn [interrupt_mask set_interrupt_mask] in Hwr.
  change (1 =? 0) with false in Hwr. cbn [andb] in Hwr.
  do 4 eexists. split; [unfold hv_begin_read; rewrite Hrb; reflexivity |].
  split; [exact Hwr |].
  unfold hv_end_read, hv_get_ringbuffer_availbytes.
  cbn [ring_buffer ring_datasize with_ring set_write_index set_buffer
       set_interrupt_mask write_index read_index].
  rewrite <- Z.add_assoc.
  rewrite avail_after_write by lia.
  split; [rewrite Z.add_assoc; reflexivity |].
  split; reflexivity.
Qed.

(** X6: a write that goes through keeps the invariants of the ring, makes
    exactly [L + 8] more bytes available to read and as many fewer to write,
    and never leaves the write index on the read index: a ring that holds
    data is not taken for an empty one. *)
Theorem write_success_accounting ri rb kv_list sg lock sg' ri' rd wr :
  ring_wf ri rb ->
  zlen (concat kv_list) + 8 < 2 ^ 32 ->
  hv_get_ringbuffer_availbytes ri = Some (rd, wr) ->
  hv_ringbuffer_write ri kv_list sg lock = Some (0, sg', ri') ->
  exists rb',
    ring_wf ri' rb' /\
    hv_get_ringbuffer_availbytes ri' =
    Some (rd + (zlen (concat kv_list) + 8),
          wr - (zlen (concat kv_list) + 8)) /\
    0 < wr - (zlen (concat kv_list) + 8) /\
    write_index rb' <> read_index rb'.
Proof.
  intros Hwf Hfit Hav H. pose proof Hwf as (Hrb & Hs & Hr & Hw & Hlen).
  pose proof (zlen_nonneg (concat kv_list)) as Hl.
  assert (Hnz : ring_datasize ri <> 0) by lia.
  rewrite (availbytes_eq _ _ Hrb) in Hav. injection Hav as Hrd Hwr.
  destruct (write_cases ri rb kv_list sg lock Hrb Hnz)
    as [(_ & E) | (Hroom & _)]; [rewrite E in H; discriminate |].
  rewrite sum_iov_len_eq, u32_small in Hroom by lia. simpl in Hroom.
  rewrite (write_spec ri rb kv_list sg lock Hwf Hroom) in H.
  apply some_triple_inj in H as (_ & _ & <-).
  pose proof (Z.mod_pos_bound (write_index rb - read_index rb)
                (ring_datasize ri) (proj1 Hs)) as Hb.
  assert (Hav' :
    ((write_index rb + (zlen (concat kv_list) + 8)) mod ring_datasize ri
     - read_index rb) mod ring_datasize ri
    = rd + (zlen (concat kv_list) + 8)).
  { rewrite avail_after_write by lia. now rewrite Hrd. }
  eexists. split; [| split; [| split]].
  - unfold ring_wf. split; [reflexivity |].
    cbn [ring_buffer ring_datasize with_ring set_write_index set_buffer
         read_index write_index buffer].
    split; [exact Hs |]. split; [exact Hr |].
    split; [apply Z.mod_pos_bound; lia |].
    now rewrite zlen_circ_write.
  - unfold hv_get_ringbuffer_availbytes.
    cbn [ring_buffer ring_datasize with_ring set_write_index set_buffer
         read_index write_index].
    rewrite <- Z.add_assoc, Hav'. do 2 f_equal. lia.
  - lia.
  - cbn [set_write_index set_buffer read_index write_index].
    intros Heq. rewrite <- Z.add_assoc in Heq.
    rewrite Heq, Z.sub_diag, Z.mod_0_l in Hav' by lia. lia.
Qed.

(** With no data region the write path either refuses or faults. *)
Lemma write_zero_size ri kv_list sg lock r sg' ri' :
  ring_datasize ri = 0 ->
  hv_ringbuffer_write ri kv_list sg lock = Some (r, sg', ri') ->
  r = - EAGAIN /\ sg' = sg /\ ri' = ri.
Proof.
  intros Hz H. unfold hv_ringbuffer_write in H.
  destruct (hv_get_ringbuffer_availbytes ri) as [[rd wr] |]; [| discriminate].
  destruct (wr <=? _).
  { apply some_triple_inj in H as (<- & <- & <-). now repeat split. }
  destruct (hv_get_next_write_location ri); [| discriminate].
  destruct (copy_kv_list ri kv_list z) as [[ri1 off1] |] eqn:E;
    [| discriminate].
  apply copy_kv_list_size in E.
  destruct (hv_get_ring_bufferindices ri1); [| discriminate].
  unfold hv_copyto_ringbuffer, hv_get_ring_buffersize, umod in H.
  rewrite E, Hz in H. simpl in H.
  destruct (ring_buffer ri1); discriminate.
Qed.

(** X7: whatever a write returns, it is 0 or the ring-full error, and the
    producer changes nothing the consumer owns: the read index, the
    interrupt mask, pending_send_sz, the feature word, the two cached sizes
    and the length of the data region are as before; a refused write changes
    nothing at all. *)
Theorem write_frame ri rb kv_list sg lock r sg' ri' :
  ring_buffer ri = Some rb ->
  hv_ringbuffer_write ri kv_list sg lock = Some (r, sg', ri') ->
  (r = 0 \/ r = - EAGAIN) /\
  (r = - EAGAIN -> sg' = sg /\ ri' = ri) /\
  exists rb',
    ring_buffer ri' = Some rb' /\
    read_index rb' = read_index rb /\
    interrupt_mask rb' = interrupt_mask rb /\
    pending_send_sz rb' = pending_send_sz rb /\
    feature_bits rb' = feature_bits rb /\
    length (buffer rb') = length (buffer rb) /\
    ring_size ri' = ring_size ri /\
    ring_datasize ri' = ring_datasize ri.
Proof.
  intros Hrb H.
  destruct (Z.eq_dec (ring_datasize ri) 0) as [Hz | Hnz].
  - destruct (write_zero_size _ _ _ _ _ _ _ Hz H) as (-> & -> & ->).
    split; [now right |]. split; [now split |].
    exists rb. now repeat split.
  - destruct (write_cases ri rb kv_list sg lock Hrb Hnz)
      as [(_ & E) | (_ & b & nxt & Hb & E)]; rewrite E in H;
      apply some_triple_inj in H as (<- & <- & <-).
    + split; [now right |]. split; [now split |].
      exists rb. now repeat split.
    + split; [now left |]. split; [discriminate |].
      eexists. split; [reflexivity |]. now repeat split.
Qed.

Section ReadProperties.
Context {L : Layout}.

(** With no data region the read path returns before it copies, or
    faults. *)
Lemma read_zero_size ri o buflen raw r o' ri' :
  ring_datasize ri = 0 ->
  hv_ringbuffer_read ri o buflen raw = Some (r, o', ri') ->
  ri' = ri /\
  ((r = - EINVAL /\ o' = o) \/
   (r = 0 /\ o' = mk_outs (dest o) 0 0 (signal o))).
Proof.
  intros Hz H. unfold hv_ringbuffer_read in H.
  destruct (buflen <=? 0).
  { apply some_triple_inj in H as (<- & <- & <-). split; [reflexivity |].
    now left. }
  destruct (hv_get_ringbuffer_availbytes ri) as [[rd wr] |]; [| discriminate].
  destruct (rd <? sizeof_desc).
  { apply some_triple_inj in H as (<- & <- & <-). split; [reflexivity |].
    now right. }
  destruct (hv_get_next_read_location ri) as [nx |]; [| discriminate].
  unfold hv_copyfrom_ringbuffer at 1 in H.
  unfold hv_get_ring_buffersize, umod in H. rewrite Hz in H. simpl in H.
  destruct (hv_get_ring_buffer ri); discriminate.
Qed.

(** X8: whatever a read returns, it is 0 or one of the three errors, and the
    consumer changes nothing the producer owns: the write index, the data
    region, the interrupt mask, pending_send_sz, the feature word and the
    two cached sizes are as before, and a read index inside the data region
    stays inside; a read that returns an error changes neither the endpoint
    nor the destination nor the flag. *)
Theorem read_frame ri rb o buflen raw r o' ri' :
  ring_buffer ri = Some rb ->
  hv_ringbuffer_read ri o buflen raw = Some (r, o', ri') ->
  (r = 0 \/ r = - EINVAL \/ r = - EAGAIN \/ r = - ENOBUFS) /\
  (r <> 0 -> ri' = ri /\ dest o' = dest o /\ signal o' = signal o) /\
  exists rb',
    ring_buffer ri' = Some rb' /\
    write_index rb' = write_index rb /\
    buffer rb' = buffer rb /\
    interrupt_mask rb' = interrupt_mask rb /\
    pending_send_sz rb' = pending_send_sz rb /\
    feature_bits rb' = feature_bits rb /\
    ring_size ri' = ring_size ri /\
    ring_datasize ri' = ring_datasize ri /\
    (0 <= read_index rb < ring_datasize ri ->
     0 <= read_index rb' < ring_datasize ri).
Proof.
  intros Hrb H.
  destruct (Z.eq_dec (ring_datasize ri) 0) as [Hz | Hnz].
  - destruct (read_zero_size _ _ _ _ _ _ _ Hz H)
      as (-> & [(-> & ->) | (-> & ->)]).
    + split; [auto |]. split; [now repeat split |].
      exists rb. now repeat split.
    + split; [auto |]. split; [intros Hne; now elim Hne |].
      exists rb. now repeat split.
  - destruct (read_cases ri rb o buflen raw Hrb Hnz)
      as (d & buf & nxt & sgn & _ & _ & Hnxt & _ & E).
    rewrite E in H. clear E.
    destruct (buflen <=? 0);
      [| destruct (_ <? sizeof_desc);
         [| destruct (_ <? u32 _);
            [| destruct (payload_len raw d >? buflen)]]];
      apply some_triple_inj in H as (<- & <- & <-).
    + split; [auto |]. split; [now repeat split |].
      exists rb. now repeat split.
    + split; [auto |]. split; [intros Hne; now elim Hne |].
      exists rb. now repeat split.
    + split; [auto |]. split; [now repeat split |].
      exists rb. now repeat split.
    + split; [auto 6 |]. split; [now repeat split |].
      exists rb. now repeat split.
    + split; [auto |]. split; [intros Hne; now elim Hne |].
      eexists. split; [reflexivity |].
      cbn [write_index buffer interrupt_mask pending_send_sz feature_bits
           set_read_index read_index ring_size ring_datasize with_ring].
      repeat split; try reflexivity; rewrite Hnxt;
        apply Z.mod_pos_bound; lia.
Qed.

(** The index after a read that went through, for a descriptor in range. *)
Lemma read_next_index ri rb o buflen raw o' ri' d :
  ring_wf ri rb ->
  peek_desc ri = Some d ->
  sizeof_desc <= (write_index rb - read_index rb) mod ring_datasize ri ->
  0 <= offset8 d <= len8 d -> len8 d < 2 ^ 16 ->
  hv_ringbuffer_read ri o buflen raw = Some (0, o', ri') ->
  ri' = with_ring ri
          (set_read_index rb
             ((read_index rb + 8 * len8 d + 8) mod ring_datasize ri)).
Proof.
  intros (Hrb & Hs & Hr & Hw & Hlen) Hd Hrd Ho Hl H.
  assert (Hnz : ring_datasize ri <> 0) by lia.
  destruct (read_cases ri rb o buflen raw Hrb Hnz)
    as (d0 & buf & nxt & sgn & Hd0 & _ & Hnxt & _ & E).
  rewrite Hd in Hd0. injection Hd0 as <-.
  rewrite E in H. clear E.
  destruct (payload_len_exact raw d) as (Ehs & Epl);
    [destruct raw; lia | lia |].
  set (skip := if raw then 0 else 8 * offset8 d) in *.
  assert (Hsk : 0 <= skip <= 8 * len8 d) by (unfold skip; destruct raw; lia).
  rewrite Ehs, Epl in Hnxt.
  rewrite (u32_small (read_index rb + skip)) in Hnxt by lia.
  assert (Hb1 := Z.mod_pos_bound (read_index rb + skip)
                   (ring_datasize ri) (proj1 Hs)).
  rewrite (u32_small ((read_index rb + skip) mod ring_datasize ri
                      + (8 * len8 d - skip))) in Hnxt by lia.
  rewrite Zplus_mod_idemp_l in Hnxt.
  replace (read_index rb + skip + (8 * len8 d - skip))
    with (read_index rb + 8 * len8 d) in Hnxt by lia.
  assert (Hb2 := Z.mod_pos_bound (read_index rb + 8 * len8 d)
                   (ring_datasize ri) (proj1 Hs)).
  rewrite (u32_small ((read_index rb + 8 * len8 d) mod ring_datasize ri + 8))
    in Hnxt by lia.
  rewrite Zplus_mod_idemp_l in Hnxt. subst nxt.
  destruct (buflen <=? 0); [discriminate |].
  destruct (Z.ltb_spec
              ((write_index rb - read_index rb) mod ring_datasize ri)
              sizeof_desc); [lia |].
  destruct (_ <? u32 _); [discriminate |].
  destruct (payload_len raw d >? buflen); [discriminate |].
  now apply some_triple_inj in H as (_ & _ & <-).
Qed.

(** X9: a read that goes through moves the read index by the whole packet
    and its back-link, [len8*8 + 8] bytes modulo the data size, in raw mode
    and outside it alike: the mode decides what is copied, not how much is
    consumed. *)
Theorem read_advance ri rb o buflen raw o' ri' rd wr d :
  ring_wf ri rb ->
  hv_get_ringbuffer_availbytes ri = Some (rd, wr) ->
  sizeof_desc <= rd ->
  peek_desc ri = Some d ->
  0 <= offset8 d <= len8 d -> len8 d < 2 ^ 16 ->
  hv_ringbuffer_read ri o buflen raw = Some (0, o', ri') ->
  exists rb',
    ring_buffer ri' = Some rb' /\
    read_index rb' =
      (read_index rb + 8 * len8 d + 8) mod ring_datasize ri.
Proof.
  intros Hwf Hav Hrd Hd Ho Hl H. pose proof Hwf as (Hrb & _).
  rewrite (availbytes_eq _ _ Hrb) in Hav. injection Hav as Hrd' _.
  rewrite <- Hrd' in Hrd.
  rewrite (read_next_index ri rb o buflen raw o' ri' d Hwf Hd Hrd Ho Hl H).
  eexists. split; reflexivity.
Qed.

(** X10: the read path checks that the packet is there, not its back-link.
    When exactly the [len8*8] bytes of the packet are available, a read with
    enough capacity still goes through and moves the read index 8 bytes past
    the write index, after which all but 8 bytes of the data region count as
    available to read. *)
Theorem read_overshoot ri rb o buflen raw rd wr d :
  ring_wf ri rb ->
  hv_get_ringbuffer_availbytes ri = Some (rd, wr) ->
  0 < sizeof_desc <= rd ->
  peek_desc ri = Some d ->
  0 <= offset8 d <= len8 d -> len8 d < 2 ^ 16 ->
  rd = 8 * len8 d ->
  0 < buflen -> payload_len raw d <= buflen ->
  exists o' ri',
    hv_ringbuffer_read ri o buflen raw = Some (0, o', ri') /\
    hv_get_ringbuffer_availbytes ri' = Some (ring_datasize ri - 8, 8).
Proof.
  intros Hwf Hav Hrd Hd Ho Hl Heq Hb Hcap.
  pose proof Hwf as (Hrb & Hs & Hr & Hw & Hlen).
  assert (Hnz : ring_datasize ri <> 0) by lia.
  rewrite (availbytes_eq _ _ Hrb) in Hav. injection Hav as Hrd' _.
  destruct (read_cases ri rb o buflen raw Hrb Hnz)
    as (d0 & buf & nxt & sgn & Hd0 & _ & _ & _ & E).
  rewrite Hd in Hd0. injection Hd0 as <-.
  destruct (payload_len_exact raw d) as (Ehs & Epl);
    [destruct raw; lia | lia |].
  assert (Hret : exists o' ri',
             hv_ringbuffer_read ri o buflen raw = Some (0, o', ri')).
  { rewrite E, Hrd'.
    destruct (Z.leb_spec buflen 0); [lia |].
    destruct (Z.ltb_spec rd sizeof_desc); [lia |].
    replace (payload_len raw d + header_skip raw d) with (8 * len8 d)
      by (rewrite Ehs, Epl; lia).
    rewrite u32_small by lia.
    destruct (Z.ltb_spec rd (8 * len8 d)); [lia |].
    rewrite Z.gtb_ltb.
    destruct (Z.ltb_spec buflen (payload_len raw d)); [lia |].
    do 2 eexists. reflexivity. }
  destruct Hret as (o' & ri' & Hret). exists o', ri'.
  split; [exact Hret |].
  rewrite <- Hrd' in Hrd.
  rewrite (read_next_index ri rb o buflen raw o' ri' d Hwf Hd (proj2 Hrd)
             Ho Hl Hret).
  unfold hv_get_ringbuffer_availbytes.
  cbn [ring_buffer ring_datasize with_ring set_read_index
       read_index write_index].
  pose proof (Z.mod_pos_bound (write_index rb - read_index rb)
                (ring_datasize ri) (proj1 Hs)) as Hbd.
  assert (Hm : (write_index rb
                - (read_index rb + 8 * len8 d + 8) mod ring_datasize ri)
               mod ring_datasize ri = ring_datasize ri - 8).
  { rewrite Zminus_mod_idemp_r, <- Heq, <- Hrd'.
    destruct (Z_lt_ge_dec (write_index rb) (read_index rb)).
    - zmod (write_index rb - read_index rb) (ring_datasize ri).
      symmetry. apply Z.mod_unique with (q := -2); lia.
    - zmod (write_index rb - read_index rb) (ring_datasize ri).
      symmetry. apply Z.mod_unique with (q := -1); lia. }
  rewrite Hm. do 2 f_equal. lia.
Qed.

(** X11: outside raw mode a descriptor whose [offset8] is above its [len8]
    never makes the read copy anything: the length wraps around to
    [2^32 - 8*(offset8 - len8)], and the read fails with the try-again error
    when fewer than [len8*8] bytes are available and with the
    buffer-too-small error otherwise, the endpoint as before. *)
Theorem read_offset_beyond_length ri rb o buflen rd wr d :
  ring_buffer ri = Some rb ->
  ring_datasize ri <> 0 ->
  hv_get_ringbuffer_availbytes ri = Some (rd, wr) ->
  sizeof_desc <= rd ->
  peek_desc ri = Some d ->
  0 <= len8 d < offset8 d -> offset8 d < 2 ^ 16 ->
  0 < buflen <= 2 ^ 32 - 2 ^ 19 ->
  exists r,
    hv_ringbuffer_read ri o buflen false =
    Some (r,
          mk_outs (dest o) (2 ^ 32 - 8 * (offset8 d - len8 d)) (trans_id d)
            (signal o), ri) /\
    (rd < 8 * len8 d -> r = - EAGAIN) /\
    (8 * len8 d <= rd -> r = - ENOBUFS).
Proof.
  intros Hrb Hnz Hav Hrd Hd Ho Ho16 Hb.
  rewrite (availbytes_eq _ _ Hrb) in Hav. injection Hav as Hrd' _.
  destruct (read_cases ri rb o buflen false Hrb Hnz)
    as (d0 & buf & nxt & sgn & Hd0 & _ & _ & _ & E).
  rewrite Hd in Hd0. injection Hd0 as <-.
  assert (Ehs : header_skip false d = 8 * offset8 d).
  { unfold header_skip. rewrite shiftl3. apply u32_small. lia. }
  assert (Epl : payload_len false d = 2 ^ 32 - 8 * (offset8 d - len8 d)).
  { unfold payload_len. rewrite Ehs, shiftl3. unfold u32.
    rewrite mod_neg by lia. lia. }
  assert (Esum : u32 (payload_len false d + header_skip false d)
                 = 8 * len8 d).
  { rewrite Ehs, Epl. unfold u32.
    replace (2 ^ 32 - 8 * (offset8 d - len8 d) + 8 * offset8 d)
      with (8 * len8 d + 2 ^ 32) by lia.
    rewrite mod_hi by lia. lia. }
  rewrite E, Hrd', Esum, Epl. clear E.
  destruct (Z.leb_spec buflen 0); [lia |].
  destruct (Z.ltb_spec rd sizeof_desc); [lia |].
  rewrite Z.gtb_ltb.
  destruct (Z.ltb_spec rd (8 * len8 d));
    [| destruct (Z.ltb_spec buflen (2 ^ 32 - 8 * (offset8 d - len8 d)));
       [| lia]];
    eexists; (split; [reflexivity |]); split; intros; (reflexivity || lia).
Qed.

End ReadProperties.

Section QueueProperties.
Context {L : Layout}.

Lemma queue_bytes_nonneg q : 0 <= queue_bytes q.
Proof.
  induction q as [| p q IH]; simpl; [lia |].
  pose proof (zlen_nonneg p). lia.
Qed.

Lemma framed_bytes q s : framed q s -> zlen s = queue_bytes q.
Proof.
  induction 1 as [| p link q s Hl _ IH]; [reflexivity |].
  simpl. rewrite !zlen_app, IH. unfold zlen at 2. rewrite Hl. lia.
Qed.

Lemma holds_avail ri q :
  holds ri q ->
  exists rb,
    ring_wf ri rb /\
    (write_index rb - read_index rb) mod ring_datasize ri = queue_bytes q /\
    queue_bytes q < ring_datasize ri.
Proof.
  intros H. apply holds_repr in H.
  destruct H as (rb & stream & Hwf & Hfr & _ & Hlt & Hwi & _).
  apply framed_bytes in Hfr. rewrite Hfr in *.
  exists rb. split; [exact Hwf |]. split; [| exact Hlt].
  rewrite Hwi. apply dist_mod. pose proof (queue_bytes_nonneg q). lia.
Qed.

(** X12: where the layout check passes and the region is a control block
    followed by [buflen] minus its size data bytes (above zero, at most
    2^31), initialisation gives a checked, empty ring: nothing is available
    to read and the whole data region is available to write. *)
Theorem init_gives_empty_ring ri0 rb0 buflen :
  sizeof_hv_ring_buffer = PAGE_SIZE ->
  0 < buflen - sizeof_hv_ring_buffer <= 2 ^ 31 ->
  zlen (buffer rb0) = buflen - sizeof_hv_ring_buffer ->
  exists ri rb,
    hv_ringbuffer_init ri0 (Some rb0) buflen = Some (0, ri) /\
    ring_wf ri rb /\
    holds ri [] /\
    hv_get_ringbuffer_availbytes ri
    = Some (0, buflen - sizeof_hv_ring_buffer).
Proof.
  intros Hsz Hd Hlen. unfold hv_ringbuffer_init.
  rewrite Hsz, Z.eqb_refl. cbn [negb]. rewrite <- Hsz.
  rewrite u32_small by lia.
  assert (Hwf : ring_wf
                  (mk_ring_info
                     (Some (set_feature_bits
                              (set_read_index (set_write_index rb0 0) 0) 1))
                     buflen (buflen - sizeof_hv_ring_buffer))
                  (set_feature_bits
                     (set_read_index (set_write_index rb0 0) 0) 1)).
  { unfold ring_wf.
    cbn [ring_buffer ring_datasize read_index write_index buffer
         set_feature_bits set_read_index set_write_index].
    repeat split; first [lia | exact Hlen]. }
  do 2 eexists. split; [reflexivity |]. split; [exact Hwf |].
  split; [eapply holds_empty; [exact Hwf | reflexivity] |].
  unfold hv_get_ringbuffer_availbytes.
  cbn [ring_buffer ring_datasize read_index write_index
       set_feature_bits set_read_index set_write_index].
  rewrite Z.sub_diag, Z.mod_0_l by lia. do 2 f_equal. lia.
Qed.

(** X13: on a ring reached by successful writes and reads, the snapshot of
    [hv_ringbuffer_get_debuginfo] reports as available to read exactly the
    bytes of the unread packets, each with its 8-byte back-link, as
    available to write the rest of the data region, and the indices and mask
    of the control block; the data region is never entirely used. *)
Theorem debuginfo_reports_queue ri q debug_info :
  holds ri q ->
  exists rb,
    ring_buffer ri = Some rb /\
    hv_ringbuffer_get_debuginfo ri debug_info =
    Some {| bytes_avail_toread := queue_bytes q;
            bytes_avail_towrite := ring_datasize ri - queue_bytes q;
            current_read_index := read_index rb;
            current_write_index := write_index rb;
            current_interrupt_mask := interrupt_mask rb |} /\
    0 < ring_datasize ri - queue_bytes q.
Proof.
  intros H. destruct (holds_avail ri q H) as (rb & Hwf & Hav & Hlt).
  pose proof Hwf as (Hrb & _).
  exists rb. split; [exact Hrb |]. split; [| lia].
  unfold hv_ringbuffer_get_debuginfo.
  rewrite (availbytes_eq _ _ Hrb), Hrb, Hav. reflexivity.
Qed.

(** X14: on a ring reached by successful writes and reads, [hv_end_read]
    clears the interrupt mask and returns the bytes of the unread packets
    with their back-links; it returns 0 exactly when no packet is left, so a
    consumer that gets a count above zero has raced with a write and has
    packets to process. *)
Theorem end_read_reports_queue ri q :
  holds ri q ->
  exists ri' rb',
    hv_end_read ri = Some (queue_bytes q, ri') /\
    ring_buffer ri' = Some rb' /\ interrupt_mask rb' = 0 /\
    holds ri' q /\
    (queue_bytes q = 0 <-> q = []).
Proof.
  intros H. destruct (holds_avail ri q H) as (rb & Hwf & Hav & Hlt).
  pose proof Hwf as (Hrb & _).
  assert (E : hv_end_read ri =
              Some (queue_bytes q, with_ring ri (set_interrupt_mask rb 0))).
  { unfold hv_end_read, hv_get_ringbuffer_availbytes. rewrite Hrb.
    cbn [ring_buffer ring_datasize with_ring set_interrupt_mask
         write_index read_index].
    now rewrite Hav. }
  do 2 eexists. split; [exact E |]. split; [reflexivity |].
  split; [reflexivity |]. split; [eapply holds_end_read; eassumption |].
  split.
  - destruct q as [| p q']; [reflexivity |]. simpl.
    pose proof (zlen_nonneg p). pose proof (queue_bytes_nonneg q'). lia.
  - now intros ->.
Qed.

(** X15: once the consumer has drained the ring and cleared the mask with
    [hv_end_read], which then returns 0, the next write that fits reports
    that the consumer must be signalled. *)
Theorem write_after_drain_signals ri kv_list sg lock :
  holds ri [] ->
  zlen (concat kv_list) + 8 < ring_datasize ri ->
  exists ri1 ri2,
    hv_end_read ri = Some (0, ri1) /\
    hv_ringbuffer_write ri1 kv_list sg lock = Some (0, true, ri2).
Proof.
  intros H Hfit. destruct (holds_avail ri [] H) as (rb & Hwf & Hav & _).
  pose proof Hwf as (Hrb & Hs & Hr & Hw & Hlen). simpl in Hav.
  assert (Heq : write_index rb = read_index rb).
  { destruct (Z_lt_ge_dec (write_index rb) (read_index rb)).
    - zmod (write_index rb - read_index rb) (ring_datasize ri). lia.
    - zmod (write_index rb - read_index rb) (ring_datasize ri). lia. }
  pose proof (ring_wf_mask ri rb 0 Hwf) as Hwf1.
  assert (Hroom : zlen (concat kv_list) + 8
                  < ring_datasize (with_ring ri (set_interrupt_mask rb 0))
                    - (write_index (set_interrupt_mask rb 0)
                       - read_index (set_interrupt_mask rb 0))
                      mod ring_datasize
                            (with_ring ri (set_interrupt_mask rb 0))).
  { cbn [ring_datasize with_ring set_interrupt_mask write_index read_index].
    rewrite Hav. lia. }
  pose proof (write_spec _ _ kv_list sg lock Hwf1 Hroom) as Hwr.
  cbn [interrupt_mask set_interrupt_mask write_index read_index] in Hwr.
  rewrite Heq in Hwr. rewrite ?Z.eqb_refl in Hwr. cbn [andb] in Hwr.
  do 2 eexists. split; [| exact Hwr].
  unfold hv_end_read, hv_get_ringbuffer_availbytes. rewrite Hrb.
  cbn [ring_buffer ring_datasize with_ring set_interrupt_mask
       write_index read_index].
  now rewrite Hav.
Qed.

End QueueProperties.

(** ** The further properties at concrete rings *)

(** Evaluates a closed conjunction of comparisons and equations. *)
Ltac concs :=
  vm_compute; repeat split;
  first [ reflexivity | let Hc := fresh "Hc" in intro Hc; discriminate Hc ].

Definition bytes8 : list byte := [x01; x02; x03; x04; x05; x06; x07; x08].

Definition ring64_rb (w r mask pending : Z) : hv_ring_buffer :=
  mk_ring_buffer w r mask pending 1 (repeat x00 64).

(** [ring64_pkt] with the write index moved back onto the end of the packet,
    before its back-link. *)
Definition ring64_nolink : hv_ring_buffer_info :=
  with_ring (ring64_pkt 0 0) (set_write_index (ring_of (ring64_pkt 0 0)) 16).

(** A descriptor whose offset8 = 3 is above its len8 = 2. *)
Definition pkt_bad : list kvec := [linux_desc_bytes 6 3 2 0 5].

Lemma ring64_pkt_wf : ring_wf (ring64_pkt 0 0) (ring_of (ring64_pkt 0 0)).
Proof. unfold ring_wf. repeat split; conc. Defined.

Lemma copyto_lays_down_witness :
  exists b,
    hv_copyto_ringbuffer (ring64 0 0 0 0) 60 bytes8 (zlen bytes8) =
    Some (with_ring (ring64 0 0 0 0) (set_buffer (ring64_rb 0 0 0 0) b),
          (60 + zlen bytes8) mod 64) /\
    zlen b = 64 /\
    firstn (length bytes8) (skipn (Z.to_nat 60) b ++ b) = bytes8 /\
    (forall j, 0 <= j < 64 -> zlen bytes8 <= (j - 60) mod 64 ->
               znth j b = znth j (repeat x00 64)).
Proof.
  apply (copyto_lays_down (ring64 0 0 0 0) (ring64_rb 0 0 0 0) 60 bytes8).
  - apply ring64_wf; lia.
  - concs.
  - concs.
Defined.

Lemma copyfrom_reads_around_witness :
  hv_copyfrom_ringbuffer (ring64_pkt 0 0) (repeat x00 16) 16 56 =
  Some (firstn (Z.to_nat 16)
          (skipn (Z.to_nat 56) (buffer (ring_of (ring64_pkt 0 0)))
           ++ buffer (ring_of (ring64_pkt 0 0)))
        ++ skipn (Z.to_nat 16) (repeat x00 16),
        (56 + 16) mod 64).
Proof.
  apply (copyfrom_reads_around (ring64_pkt 0 0) (ring_of (ring64_pkt 0 0))
           (repeat x00 16) 16 56).
  - exact ring64_pkt_wf.
  - concs.
  - concs.
  - concs.
Defined.

(** The 16 bytes read around the end are the descriptor of [pkt24]. *)
Example copyfrom_descriptor :
  hv_copyfrom_ringbuffer (ring64_pkt 0 0) (repeat x00 16) 16 56 =
  Some (linux_desc_bytes 6 2 3 0 77, 8).
Proof. vm_compute. reflexivity. Qed.

Lemma copy_round_trip_witness :
  exists ri' nx,
    hv_copyto_ringbuffer (ring64 0 0 0 0) 60 bytes8 (zlen bytes8)
    = Some (ri', nx) /\
    hv_copyfrom_ringbuffer ri' (repeat xff 8) (zlen bytes8) 60 =
    Some (bytes8 ++ skipn (length bytes8) (repeat xff 8), nx).
Proof.
  apply (copy_round_trip (ring64 0 0 0 0) (ring64_rb 0 0 0 0) 60 bytes8
           (repeat xff 8)).
  - apply ring64_wf; lia.
  - concs.
  - concs.
  - concs.
Defined.

Lemma copy_segments_compose_witness :
  copy_kv_list (ring64 56 56 0 0) pkt24 56 =
  hv_copyto_ringbuffer (ring64 56 56 0 0) 56 (concat pkt24)
    (zlen (concat pkt24)).
Proof.
  apply (copy_segments_compose (ring64 56 56 0 0) (ring64_rb 56 56 0 0)
           pkt24 56).
  - apply ring64_wf; lia.
  - concs.
  - concs.
Defined.

Lemma no_lost_wakeup_witness :
  exists ri1 ri2 ri3 rb3,
    hv_begin_read (ring64 56 56 0 0) = Some ri1 /\
    hv_ringbuffer_write ri1 pkt24 true true = Some (0, false, ri2) /\
    hv_end_read ri2 =
    Some ((56 - 56) mod 64 + zlen (concat pkt24) + 8, ri3) /\
    ring_buffer ri3 = Some rb3 /\ interrupt_mask rb3 = 0.
Proof.
  apply (no_lost_wakeup (ring64 56 56 0 0) (ring64_rb 56 56 0 0) pkt24
           true true).
  - apply ring64_wf; lia.
  - concs.
Defined.

Lemma write_success_accounting_witness :
  exists rb',
    ring_wf (ring64_pkt 0 0) rb' /\
    hv_get_ringbuffer_availbytes (ring64_pkt 0 0) =
    Some (0 + (zlen (concat pkt24) + 8), 64 - (zlen (concat pkt24) + 8)) /\
    0 < 64 - (zlen (concat pkt24) + 8) /\
    write_index rb' <> read_index rb'.
Proof.
  apply (write_success_accounting (ring64 56 56 0 0) (ring64_rb 56 56 0 0)
           pkt24 false true true (ring64_pkt 0 0) 0 64).
  - apply ring64_wf; lia.
  - concs.
  - reflexivity.
  - vm_compute. reflexivity.
Defined.

Lemma write_frame_witness :
  (0 = 0 \/ 0 = - EAGAIN) /\
  (0 = - EAGAIN -> true = false /\ ring64_pkt 0 0 = ring64 56 56 0 0) /\
  exists rb',
    ring_buffer (ring64_pkt 0 0) = Some rb' /\
    read_index rb' = 56 /\ interrupt_mask rb' = 0 /\
    pending_send_sz rb' = 0 /\ feature_bits rb' = 1 /\
    length (buffer rb') = length (repeat x00 64) /\
    ring_size (ring64_pkt 0 0) = 4160 /\
    ring_datasize (ring64_pkt 0 0) = 64.
Proof.
  apply (write_frame (ring64 56 56 0 0) (ring64_rb 56 56 0 0) pkt24 false
           true 0 true (ring64_pkt 0 0)).
  - reflexivity.
  - vm_compute. reflexivity.
Defined.

Lemma read_frame_witness :
  exists r o' ri',
    hv_ringbuffer_read (L := linux_layout) (ring64_pkt 0 0) (outs0 4) 4 false
    = Some (r, o', ri') /\
    (r = 0 \/ r = - EINVAL \/ r = - EAGAIN \/ r = - ENOBUFS) /\
    (r <> 0 ->
     ri' = ring64_pkt 0 0 /\ dest o' = dest (outs0 4)
     /\ signal o' = signal (outs0 4)) /\
    exists rb',
      ring_buffer ri' = Some rb' /\
      write_index rb' = write_index (ring_of (ring64_pkt 0 0)) /\
      buffer rb' = buffer (ring_of (ring64_pkt 0 0)) /\
      interrupt_mask rb' = interrupt_mask (ring_of (ring64_pkt 0 0)) /\
      pending_send_sz rb' = pending_send_sz (ring_of (ring64_pkt 0 0)) /\
      feature_bits rb' = feature_bits (ring_of (ring64_pkt 0 0)) /\
      ring_size ri' = ring_size (ring64_pkt 0 0) /\
      ring_datasize ri' = ring_datasize (ring64_pkt 0 0) /\
      (0 <= read_index (ring_of (ring64_pkt 0 0))
       < ring_datasize (ring64_pkt 0 0) ->
       0 <= read_index rb' < ring_datasize (ring64_pkt 0 0)).
Proof.
  do 3 eexists. split; [vm_compute; reflexivity |].
  apply (read_frame (L := linux_layout) (ring64_pkt 0 0)
           (ring_of (ring64_pkt 0 0)) (outs0 4) 4 false).
  - vm_compute. reflexivity.
  - vm_compute. reflexivity.
Defined.

Lemma read_advance_witness :
  exists rb',
    ring_buffer (after_read (ring64_pkt 0 0) 32 true) = Some rb' /\
    read_index rb' = (56 + 8 * 3 + 8) mod 64.
Proof.
  apply (read_advance (L := linux_layout) (ring64_pkt 0 0)
           (ring_of (ring64_pkt 0 0)) (outs0 32) 32 true
           (mk_outs (concat pkt24 ++ repeat xff 8) 24 77 false)
           (after_read (ring64_pkt 0 0) 32 true) 32 32 (mk_desc 2 3 77)).
  - exact ring64_pkt_wf.
  - vm_compute. reflexivity.
  - concs.
  - vm_compute. reflexivity.
  - concs.
  - concs.
  - vm_compute. reflexivity.
Defined.

Lemma read_overshoot_witness :
  exists o' ri',
    hv_ringbuffer_read (L := linux_layout) ring64_nolink (outs0 32) 32 false
    = Some (0, o', ri') /\
    hv_get_ringbuffer_availbytes ri' = Some (64 - 8, 8).
Proof.
  apply (read_overshoot (L := linux_layout) ring64_nolink
           (ring_of ring64_nolink) (outs0 32) 32 false 24 40
           (mk_desc 2 3 77)).
  - unfold ring_wf. repeat split; conc.
  - vm_compute. reflexivity.
  - concs.
  - vm_compute. reflexivity.
  - concs.
  - concs.
  - reflexivity.
  - concs.
  - concs.
Defined.

Lemma read_offset_beyond_length_witness :
  exists r,
    hv_ringbuffer_read (L := linux_layout) (after_write (ring64 0 0 0 0) pkt_bad)
      (outs0 32) 32 false =
    Some (r, mk_outs (dest (outs0 32)) (2 ^ 32 - 8 * (3 - 2)) 5
               (signal (outs0 32)),
          after_write (ring64 0 0 0 0) pkt_bad) /\
    (24 < 8 * 2 -> r = - EAGAIN) /\
    (8 * 2 <= 24 -> r = - ENOBUFS).
Proof.
  apply (read_offset_beyond_length (L := linux_layout)
           (after_write (ring64 0 0 0 0) pkt_bad)
           (ring_of (after_write (ring64 0 0 0 0) pkt_bad)) (outs0 32) 32
           24 40 (mk_desc 3 2 5)).
  - vm_compute. reflexivity.
  - concs.
  - vm_compute. reflexivity.
  - concs.
  - vm_compute. reflexivity.
  - concs.
  - concs.
  - concs.
Defined.

Lemma init_gives_empty_ring_witness :
  exists ri rb,
    hv_ringbuffer_init (L := linux_layout) (mk_ring_info None 0 0)
      (Some (mk_ring_buffer 5 7 0 0 0 (repeat x00 64))) 4160
    = Some (0, ri) /\
    ring_wf ri rb /\
    holds (L := linux_layout) ri [] /\
    hv_get_ringbuffer_availbytes ri = Some (0, 4160 - 4096).
Proof.
  apply (init_gives_empty_ring (L := linux_layout) (mk_ring_info None 0 0)
           (mk_ring_buffer 5 7 0 0 0 (repeat x00 64)) 4160).
  - reflexivity.
  - concs.
  - reflexivity.
Defined.

Lemma debuginfo_reports_queue_witness :
  exists rb,
    ring_buffer (ring64_pkt 0 0) = Some rb /\
    hv_ringbuffer_get_debuginfo (ring64_pkt 0 0) (mk_debug_info 9 9 9 9 9) =
    Some {| bytes_avail_toread := queue_bytes [concat pkt24];
            bytes_avail_towrite := 64 - queue_bytes [concat pkt24];
            current_read_index := read_index rb;
            current_write_index := write_index rb;
            current_interrupt_mask := interrupt_mask rb |} /\
    0 < 64 - queue_bytes [concat pkt24].
Proof.
  apply (debuginfo_reports_queue (L := linux_layout) (ring64_pkt 0 0)
           [concat pkt24] (mk_debug_info 9 9 9 9 9)).
  exact ring64_pkt_holds.
Defined.

Lemma end_read_reports_queue_witness :
  exists ri' rb',
    hv_end_read (ring64_pkt 0 0) = Some (queue_bytes [concat pkt24], ri') /\
    ring_buffer ri' = Some rb' /\ interrupt_mask rb' = 0 /\
    holds (L := linux_layout) ri' [concat pkt24] /\
    (queue_bytes [concat pkt24] = 0 <-> [concat pkt24] = []).
Proof.
  apply (end_read_reports_queue (L := linux_layout) (ring64_pkt 0 0)
           [concat pkt24]).
  exact ring64_pkt_holds.
Defined.

Lemma write_after_drain_signals_witness :
  exists ri1 ri2,
    hv_end_read (ring64 56 56 1 0) = Some (0, ri1) /\
    hv_ringbuffer_write ri1 pkt24 false true = Some (0, true, ri2).
Proof.
  apply (write_after_drain_signals (L := linux_layout) (ring64 56 56 1 0)
           pkt24 false true).
  - eapply holds_empty; [apply (ring64_wf 56 56 1 0); lia | reflexivity].
  - concs.
Defined.
